(** * password_app: the encrypted vault, the password generator and the
      strength evaluator

    A shallow embedding of [src/lib/crypto.ts], [src/lib/storage.ts] and
    [src/lib/passwordGenerator.ts].

    Conventions
    - a JavaScript string is the list of its UTF-16 code units ([jsstring]);
    - a [Uint8Array] is a list of bytes;
    - [localStorage] is a finite map from keys to strings;
    - an [async] function is a function of the [World] (storage, entropy
      tape, clock) that returns a value or a thrown error together with the
      world it leaves behind;
    - the browser primitives the code calls but does not define (PBKDF2,
      AES-GCM, JSON, [toLowerCase]) are the fields of [WebPlatform]; what is
      assumed about them is stated as a hypothesis where it is used;
    - [btoa], [atob], [TextEncoder] and [TextDecoder] are written out after
      the WHATWG definitions, with shifts and masks as division and
      remainder by powers of two.

    Implementation-defined limits of an engine (the number of arguments
    [String.fromCharCode] accepts, the [localStorage] quota) are not part of
    the model; the 65536-byte quota of [crypto.getRandomValues] is. *)

From Stdlib Require Import NArith ZArith Lia Strings.Byte.
From stdpp Require Import base option list strings countable gmap.

Open Scope N_scope.

(** ** Values, errors and results *)

Abbreviation jsstring := (list N).
Abbreviation Uint8Array := (list byte).

(** A string literal of ASCII characters as a JavaScript string. *)
Definition js (s : string) : jsstring :=
  map (fun a => N.of_nat (Ascii.nat_of_ascii a)) (String.list_ascii_of_string s).

Definition byte_of_N (n : N) : byte := default x00 (Byte.of_N (n mod 256)).

Inductive JsError :=
  | InvalidCharacterError   (* atob / btoa *)
  | OperationError          (* crypto.subtle.decrypt *)
  | SyntaxError             (* JSON.parse *)
  | QuotaExceededError      (* crypto.getRandomValues *)
  | Error (message : string).

Inductive result (A : Type) :=
  | Ok (a : A)
  | Err (e : JsError).
Arguments Ok {A} a.
Arguments Err {A} e.

Definition succeeded {A} (r : result A) : bool :=
  match r with Ok _ => true | Err _ => false end.

(** ** Base64: [btoa] and [atob] *)

Module Base64.

Definition PAD : N := 61.   (* '=' *)

(** The character of a sextet, over the alphabet [A-Za-z0-9+/]. *)
Definition char_of (s : N) : N :=
  if s <? 26 then 65 + s
  else if s <? 52 then 97 + (s - 26)
  else if s <? 62 then 48 + (s - 52)
  else if s =? 62 then 43
  else 47.

Definition value_of (c : N) : option N :=
  if (65 <=? c) && (c <=? 90) then Some (c - 65)
  else if (97 <=? c) && (c <=? 122) then Some (c - 97 + 26)
  else if (48 <=? c) && (c <=? 57) then Some (c - 48 + 52)
  else if c =? 43 then Some 62
  else if c =? 47 then Some 63
  else None.

(** Three bytes make four sextets; one or two bytes left at the end make
    two or three, filled with zero bits. *)
Fixpoint sextets (bs : list N) : list N :=
  match bs with
  | a :: b :: c :: rest =>
      a / 4 :: (a mod 4) * 16 + b / 16 :: (b mod 16) * 4 + c / 64 :: c mod 64
      :: sextets rest
  | [a; b] => [a / 4; (a mod 4) * 16 + b / 16; (b mod 16) * 4]
  | [a] => [a / 4; (a mod 4) * 16]
  | [] => []
  end.

Definition padding (n : nat) : jsstring :=
  repeat PAD ((3 - n mod 3) mod 3)%nat.

Definition encode_bytes (bs : list N) : jsstring :=
  map char_of (sextets bs) ++ padding (length bs).

(** [btoa]: throws when a character is above U+00FF. *)
Definition btoa (s : jsstring) : result jsstring :=
  if existsb (fun c => 255 <? c) s then Err InvalidCharacterError
  else Ok (encode_bytes s).

Definition is_ascii_whitespace (c : N) : bool :=
  (c =? 9) || (c =? 10) || (c =? 12) || (c =? 13) || (c =? 32).

(** Forgiving-base64 decode, step 2: when the length is a multiple of
    four, one or two trailing ['='] are removed. *)
Definition strip_padding (s : jsstring) : jsstring :=
  if (length s mod 4 =? 0)%nat then
    match rev s with
    | c1 :: c2 :: r =>
        if c1 =? PAD then (if c2 =? PAD then rev r else rev (c2 :: r))
        else s
    | [c1] => if c1 =? PAD then [] else s
    | [] => s
    end
  else s.

Fixpoint values (s : jsstring) : option (list N) :=
  match s with
  | [] => Some []
  | c :: rest =>
      match value_of c, values rest with
      | Some v, Some vs => Some (v :: vs)
      | _, _ => None
      end
  end.

(** The bytes of a sequence of sextets; the bits left over at the end
    (four after two sextets, two after three) are dropped. *)
Fixpoint bytes_of (vs : list N) : list N :=
  match vs with
  | s1 :: s2 :: s3 :: s4 :: rest =>
      (s1 * 4 + s2 / 16) :: ((s2 mod 16) * 16 + s3 / 4)
      :: ((s3 mod 4) * 64 + s4) :: bytes_of rest
  | [s1; s2; s3] => [s1 * 4 + s2 / 16; (s2 mod 16) * 16 + s3 / 4]
  | [s1; s2] => [s1 * 4 + s2 / 16]
  | _ => []
  end.

Definition atob (s : jsstring) : result jsstring :=
  let data := strip_padding (filter (fun c => is_ascii_whitespace c = false) s) in
  if (length data mod 4 =? 1)%nat then Err InvalidCharacterError
  else match values data with
       | Some vs => Ok (bytes_of vs)
       | None => Err InvalidCharacterError
       end.

End Base64.

(** ** UTF-16 and UTF-8: [TextEncoder] and [TextDecoder] *)

Module TextCoding.

Definition REPLACEMENT : N := 0xFFFD.
Definition BOM : N := 0xFEFF.

Definition is_lead (u : N) : bool := (0xD800 <=? u) && (u <=? 0xDBFF).
Definition is_trail (u : N) : bool := (0xDC00 <=? u) && (u <=? 0xDFFF).

(** Conversion of a string to scalar values: a surrogate pair is one code
    point, a surrogate without its partner becomes U+FFFD. *)
Fixpoint code_points (s : jsstring) : list N :=
  match s with
  | [] => []
  | u :: rest =>
      if is_lead u then
        match rest with
        | t :: rest' =>
            if is_trail t
            then 0x10000 + (u - 0xD800) * 1024 + (t - 0xDC00) :: code_points rest'
            else REPLACEMENT :: code_points rest
        | [] => [REPLACEMENT]
        end
      else if is_trail u then REPLACEMENT :: code_points rest
      else u :: code_points rest
  end.

(** The UTF-8 encoder: [cp >> 6k] is [cp / 64^k], [x & 0x3F] is [x mod 64]
    and [0x80 | x] is [0x80 + x] for a six-bit [x]. *)
Definition utf8_bytes (cp : N) : list N :=
  if cp <? 0x80 then [cp]
  else if cp <? 0x800 then [0xC0 + cp / 64; 0x80 + cp mod 64]
  else if cp <? 0x10000 then
    [0xE0 + cp / 4096; 0x80 + (cp / 64) mod 64; 0x80 + cp mod 64]
  else
    [0xF0 + cp / 262144; 0x80 + (cp / 4096) mod 64;
     0x80 + (cp / 64) mod 64; 0x80 + cp mod 64].

(** [new TextEncoder().encode(s)] *)
Definition encode (s : jsstring) : Uint8Array :=
  map byte_of_N (flat_map utf8_bytes (code_points s)).

(** The state of the UTF-8 decoder. *)
Record utf8_state := mk_utf8_state {
  code_point : N;
  bytes_seen : N;
  bytes_needed : N;
  lower_boundary : N;
  upper_boundary : N
}.

Definition utf8_init : utf8_state := mk_utf8_state 0 0 0 0x80 0xBF.

(** A byte read while no sequence is open. *)
Definition utf8_lead (b : N) : utf8_state * list N :=
  if b <=? 0x7F then (utf8_init, [b])
  else if (0xC2 <=? b) && (b <=? 0xDF) then
    (mk_utf8_state (b mod 32) 0 1 0x80 0xBF, [])
  else if (0xE0 <=? b) && (b <=? 0xEF) then
    (mk_utf8_state (b mod 16) 0 2
       (if b =? 0xE0 then 0xA0 else 0x80)
       (if b =? 0xED then 0x9F else 0xBF), [])
  else if (0xF0 <=? b) && (b <=? 0xF4) then
    (mk_utf8_state (b mod 8) 0 3
       (if b =? 0xF0 then 0x90 else 0x80)
       (if b =? 0xF4 then 0x8F else 0xBF), [])
  else (utf8_init, [REPLACEMENT]).

(** One byte through the decoder: the new state and the code points
    emitted. A byte that cannot continue the open sequence closes it with
    U+FFFD and is read again with no sequence open. *)
Definition utf8_step (st : utf8_state) (b : N) : utf8_state * list N :=
  if bytes_needed st =? 0 then utf8_lead b
  else if (b <? lower_boundary st) || (upper_boundary st <? b) then
    let '(st', out) := utf8_lead b in (st', REPLACEMENT :: out)
  else
    let cp := code_point st * 64 + b mod 64 in
    if bytes_seen st + 1 =? bytes_needed st then (utf8_init, [cp])
    else (mk_utf8_state cp (bytes_seen st + 1) (bytes_needed st) 0x80 0xBF, []).

Fixpoint utf8_run (st : utf8_state) (bs : list N) : list N :=
  match bs with
  | [] => if bytes_needed st =? 0 then [] else [REPLACEMENT]
  | b :: rest =>
      let '(st', out) := utf8_step st b in out ++ utf8_run st' rest
  end.

(** With [ignoreBOM] unset, a leading U+FEFF is not part of the output. *)
Definition strip_bom (cps : list N) : list N :=
  match cps with
  | c :: rest => if c =? BOM then rest else cps
  | [] => []
  end.

Definition utf16_units (cp : N) : jsstring :=
  if cp <? 0x10000 then [cp]
  else [0xD800 + (cp - 0x10000) / 1024; 0xDC00 + (cp - 0x10000) mod 1024].

(** [new TextDecoder().decode(bytes)]: UTF-8, not fatal, [ignoreBOM] unset. *)
Definition decode (bytes : Uint8Array) : jsstring :=
  flat_map utf16_units (strip_bom (utf8_run utf8_init (map Byte.to_N bytes))).

(** A Unicode scalar value: a code point that is not a surrogate. *)
Definition scalar_value (cp : N) : Prop :=
  cp < 0x110000 /\ (cp < 0xD800 \/ 0xDFFF < cp).

(** A string of 16-bit code units in which every surrogate is half of a
    pair. *)
Fixpoint well_formed (s : jsstring) : bool :=
  match s with
  | [] => true
  | u :: rest =>
      if is_lead u then
        match rest with
        | t :: rest' => is_trail t && well_formed rest'
        | [] => false
        end
      else negb (is_trail u) && (u <? 0x10000) && well_formed rest
  end.

End TextCoding.

(** ** storage.ts: the entry type *)

Record PasswordEntry := mkPasswordEntry {
  entry_id : jsstring;              (* id *)
  serviceName : jsstring;
  username : jsstring;
  password : jsstring;
  url : option jsstring;            (* [None] is [undefined] *)
  notes : option jsstring;
  category : option jsstring;
  createdAt : jsstring;
  updatedAt : jsstring
}.

(** [Partial<Omit<PasswordEntry, 'id' | 'createdAt' | 'updatedAt'>>]:
    [None] is a property that is not supplied. An optional property may be
    supplied as [undefined], which is [Some None]. *)
Record EntryUpdates := mkEntryUpdates {
  upd_serviceName : option jsstring;
  upd_username : option jsstring;
  upd_password : option jsstring;
  upd_url : option (option jsstring);
  upd_notes : option (option jsstring);
  upd_category : option (option jsstring)
}.

(** ** The browser primitives *)

Class WebPlatform := {
  (** [crypto.subtle.deriveKey] with PBKDF2 and SHA-256: password bytes,
      salt, iterations, key length in bits. *)
  PBKDF2_SHA256 : Uint8Array -> Uint8Array -> N -> N -> Uint8Array;
  (** [crypto.subtle.encrypt] and [decrypt] with AES-GCM: key, iv, data.
      Decryption rejects ([None]) when the tag does not verify. *)
  AES_GCM_encrypt : Uint8Array -> Uint8Array -> Uint8Array -> Uint8Array;
  AES_GCM_decrypt : Uint8Array -> Uint8Array -> Uint8Array -> option Uint8Array;
  (** [JSON.stringify] and [JSON.parse] at the type the code gives them;
      [None] is a thrown [SyntaxError]. *)
  JSON_stringify : list PasswordEntry -> jsstring;
  JSON_parse : jsstring -> option (list PasswordEntry);
  (** [String.prototype.toLowerCase] *)
  toLowerCase : jsstring -> jsstring
}.

(** What the code relies on. *)
Definition aead_correct `{WebPlatform} : Prop :=
  forall key iv data, AES_GCM_decrypt key iv (AES_GCM_encrypt key iv data) = Some data.

Definition json_correct `{WebPlatform} : Prop :=
  forall c, JSON_parse (JSON_stringify c) = Some c
            /\ TextCoding.well_formed (JSON_stringify c) = true
            /\ head (JSON_stringify c) <> Some TextCoding.BOM.

(** ** The world of an [async] function *)

Record World := mkWorld {
  localStorage : gmap string jsstring;
  entropy : nat -> N;        (* the values the random sources will give *)
  drawn : nat;               (* how many have been used *)
  clock : nat -> jsstring;   (* [new Date().toISOString()] at each reading *)
  ticks : nat                (* how many readings have been made *)
}.

Definition async (A : Type) : Type := World -> result A * World.

Definition ret {A} (a : A) : async A := fun w => (Ok a, w).
Definition throw {A} (e : JsError) : async A := fun w => (Err e, w).

Definition bind {A B} (m : async A) (k : A -> async B) : async B :=
  fun w => match m w with
           | (Ok a, w') => k a w'
           | (Err e, w') => (Err e, w')
           end.

Definition try_catch {A} (m : async A) (handler : JsError -> async A) : async A :=
  fun w => match m w with
           | (Ok a, w') => (Ok a, w')
           | (Err e, w') => handler e w'
           end.

Definition lift {A} (r : result A) : async A := fun w => (r, w).

Declare Scope async_scope.
Delimit Scope async_scope with async.
Notation "x <- m ;; k" := (bind m (fun x => k))
  (at level 63, m at next level, right associativity) : async_scope.
Notation "m ;;; k" := (bind m (fun _ => k))
  (at level 63, right associativity) : async_scope.
Open Scope async_scope.

Definition getItem (key : string) : async (option jsstring) :=
  fun w => (Ok (localStorage w !! key), w).

Definition setItem (key : string) (value : jsstring) : async unit :=
  fun w => (Ok tt, mkWorld (<[key := value]> (localStorage w))
                           (entropy w) (drawn w) (clock w) (ticks w)).

Definition removeItem (key : string) : async unit :=
  fun w => (Ok tt, mkWorld (delete key (localStorage w))
                           (entropy w) (drawn w) (clock w) (ticks w)).

Definition draw (n : nat) (w : World) : list N :=
  map (fun i => entropy w (drawn w + i)%nat) (seq 0 n).

Definition advance (n : nat) (w : World) : World :=
  mkWorld (localStorage w) (entropy w) (drawn w + n) (clock w) (ticks w).

(** [crypto.getRandomValues(new Uint8Array(n))] *)
Definition getRandomBytes (n : nat) : async Uint8Array :=
  fun w => if 65536 <? N.of_nat n then (Err QuotaExceededError, w)
           else (Ok (map byte_of_N (draw n w)), advance n w).

(** [crypto.getRandomValues(new Uint32Array(n))]: an array of more than
    65536 bytes is refused. *)
Definition getRandomUint32s (n : nat) : async (list N) :=
  fun w => if 65536 <? 4 * N.of_nat n then (Err QuotaExceededError, w)
           else (Ok (map (fun v => v mod 2 ^ 32) (draw n w)), advance n w).

(** [Math.floor(Math.random() * n)]: some index below [n]; the tape
    decides which. *)
Definition randomIndex (n : nat) : async nat :=
  fun w => (Ok (N.to_nat (entropy w (drawn w)) mod n)%nat, advance 1 w).

(** [new Date().toISOString()] *)
Definition nowISOString : async jsstring :=
  fun w => (Ok (clock w (ticks w)),
            mkWorld (localStorage w) (entropy w) (drawn w) (clock w) (S (ticks w))).

(** A value in a condition: [undefined], [null] and the empty string are
    falsy. *)
Definition truthy (v : option jsstring) : bool :=
  match v with
  | None | Some [] => false
  | Some (_ :: _) => true
  end.

(** ** crypto.ts *)

Section Crypto.
Context `{WebPlatform}.

Definition PBKDF2_ITERATIONS : N := 100000.
Definition KEY_LENGTH : N := 256.
Definition SALT_LENGTH : nat := 16.
Definition IV_LENGTH : nat := 12.

Definition VERIFICATION_STRING : jsstring := js "PASSWORD_VERIFICATION_STRING".

(** [deriveKey]: a [Uint8Array] is truthy whatever its length, so a salt
    that is passed is the salt that is used. *)
Definition deriveKey (password : jsstring) (salt : option Uint8Array)
  : async (Uint8Array * Uint8Array) :=
  usedSalt <- match salt with
              | Some s => ret s
              | None => getRandomBytes SALT_LENGTH
              end ;;
  let passwordBuffer := TextCoding.encode password in
  let key := PBKDF2_SHA256 passwordBuffer usedSalt PBKDF2_ITERATIONS KEY_LENGTH in
  ret (key, usedSalt).

Definition encrypt (plaintext password : jsstring) : async jsstring :=
  derived <- deriveKey password None ;;
  let '(key, salt) := derived in
  iv <- getRandomBytes IV_LENGTH ;;
  let plaintextBuffer := TextCoding.encode plaintext in
  let ciphertext := AES_GCM_encrypt key iv plaintextBuffer in
  let combined := salt ++ iv ++ ciphertext in
  lift (Base64.btoa (map Byte.to_N combined)).

Definition decrypt (encryptedData password : jsstring) : async jsstring :=
  binary <- lift (Base64.atob encryptedData) ;;
  let combined := map byte_of_N binary in
  let salt := take SALT_LENGTH combined in
  let iv := take IV_LENGTH (drop SALT_LENGTH combined) in
  let ciphertext := drop (SALT_LENGTH + IV_LENGTH) combined in
  derived <- deriveKey password (Some salt) ;;
  let '(key, _) := derived in
  match AES_GCM_decrypt key iv ciphertext with
  | Some plaintextBuffer => ret (TextCoding.decode plaintextBuffer)
  | None => throw OperationError
  end.

(** The blob [encrypt] returns when the random source gives [salt] and
    [iv]: the text of [salt ++ iv ++ ciphertext]. *)
Definition sealed (plaintext password : jsstring) (salt iv : Uint8Array) : jsstring :=
  let key := PBKDF2_SHA256 (TextCoding.encode password) salt PBKDF2_ITERATIONS KEY_LENGTH in
  Base64.encode_bytes
    (map Byte.to_N (salt ++ iv ++ AES_GCM_encrypt key iv (TextCoding.encode plaintext))).

(** The salt and the iv that a call of [encrypt] in world [w] draws. *)
Definition next_salt (w : World) : Uint8Array := map byte_of_N (draw SALT_LENGTH w).
Definition next_iv (w : World) : Uint8Array :=
  map byte_of_N (draw IV_LENGTH (advance SALT_LENGTH w)).

Definition createPasswordVerifier (password : jsstring) : async jsstring :=
  let verificationString := VERIFICATION_STRING in
  encrypt verificationString password.

Definition verifyPassword (password verifier : jsstring) : async bool :=
  try_catch
    (decrypted <- decrypt verifier password ;;
     ret (bool_decide (decrypted = VERIFICATION_STRING)))
    (fun _ => ret false).

End Crypto.

(** ** storage.ts *)

Section Storage.
Context `{WebPlatform}.

Definition PASSWORD_VERIFIER : string := "pm_password_verifier".
Definition ENCRYPTED_DATA : string := "pm_encrypted_data".
Definition IS_INITIALIZED : string := "pm_initialized".

Definition DECRYPT_FAILED : string := "データの復号に失敗しました".

(** [isAppInitialized]; [hasWindow] is [typeof window !== 'undefined']. *)
Definition isAppInitialized (hasWindow : bool) (w : World) : bool :=
  if negb hasWindow then false
  else bool_decide (localStorage w !! IS_INITIALIZED = Some (js "true")).

Definition initializeApp (masterPassword : jsstring) : async unit :=
  verifier <- createPasswordVerifier masterPassword ;;
  encryptedData <- encrypt (JSON_stringify []) masterPassword ;;
  setItem PASSWORD_VERIFIER verifier ;;;
  setItem ENCRYPTED_DATA encryptedData ;;;
  setItem IS_INITIALIZED (js "true").

Definition validateMasterPassword (masterPassword : jsstring) : async bool :=
  verifier <- getItem PASSWORD_VERIFIER ;;
  if negb (truthy verifier) then ret false
  else verifyPassword masterPassword (default [] verifier).

Definition getPasswords (masterPassword : jsstring) : async (list PasswordEntry) :=
  encryptedData <- getItem ENCRYPTED_DATA ;;
  if negb (truthy encryptedData) then ret []
  else
    try_catch
      (decrypted <- decrypt (default [] encryptedData) masterPassword ;;
       match JSON_parse decrypted with
       | Some passwords => ret passwords
       | None => throw SyntaxError
       end)
      (fun _ => throw (Error DECRYPT_FAILED)).

Definition savePasswords (passwords : list PasswordEntry) (masterPassword : jsstring)
  : async unit :=
  encryptedData <- encrypt (JSON_stringify passwords) masterPassword ;;
  setItem ENCRYPTED_DATA encryptedData.

(** [passwords.findIndex((p) => p.id === id)]; [None] is [-1]. *)
Definition findIndex (id_ : jsstring) (passwords : list PasswordEntry) : option nat :=
  fst <$> list_find (fun p => entry_id p = id_) passwords.

(** [{ ...entry, ...updates, updatedAt }] *)
Definition merge (entry : PasswordEntry) (updates : EntryUpdates) (now : jsstring)
  : PasswordEntry :=
  {| entry_id := entry_id entry;
     serviceName := default (serviceName entry) (upd_serviceName updates);
     username := default (username entry) (upd_username updates);
     password := default (password entry) (upd_password updates);
     url := default (url entry) (upd_url updates);
     notes := default (notes entry) (upd_notes updates);
     category := default (category entry) (upd_category updates);
     createdAt := createdAt entry;
     updatedAt := now |}.

Definition updatePassword (id_ : jsstring) (updates : EntryUpdates)
  (masterPassword : jsstring) : async (option PasswordEntry) :=
  passwords <- getPasswords masterPassword ;;
  match list_find (fun p => entry_id p = id_) passwords with
  | None => ret None                        (* index === -1 *)
  | Some (index, entry) =>                  (* entry is passwords[index] *)
      now <- nowISOString ;;
      let passwords' := <[index := merge entry updates now]> passwords in
      savePasswords passwords' masterPassword ;;;
      ret (passwords' !! index)
  end.

Definition deletePassword (id_ masterPassword : jsstring) : async bool :=
  passwords <- getPasswords masterPassword ;;
  match findIndex id_ passwords with
  | None => ret false
  | Some index =>
      let passwords' := delete index passwords in
      savePasswords passwords' masterPassword ;;;
      ret true
  end.

(** [haystack.includes(needle)] *)
Fixpoint starts_with (needle haystack : jsstring) : bool :=
  match needle, haystack with
  | [], _ => true
  | _ :: _, [] => false
  | x :: needle', y :: haystack' => (x =? y) && starts_with needle' haystack'
  end.

Fixpoint includes (haystack needle : jsstring) : bool :=
  starts_with needle haystack
  || match haystack with
     | [] => false
     | _ :: rest => includes rest needle
     end.

(** [field && field.toLowerCase().includes(lowerQuery)] *)
Definition optional_includes (field : option jsstring) (lowerQuery : jsstring) : bool :=
  if truthy field then includes (toLowerCase (default [] field)) lowerQuery
  else false.

Definition matches_query (lowerQuery : jsstring) (p : PasswordEntry) : bool :=
  includes (toLowerCase (serviceName p)) lowerQuery
  || includes (toLowerCase (username p)) lowerQuery
  || optional_includes (url p) lowerQuery
  || optional_includes (notes p) lowerQuery
  || optional_includes (category p) lowerQuery.

Definition searchPasswords (query masterPassword : jsstring)
  : async (list PasswordEntry) :=
  passwords <- getPasswords masterPassword ;;
  let lowerQuery := toLowerCase query in
  ret (List.filter (matches_query lowerQuery) passwords).




Definition resetApp : async unit :=
  removeItem PASSWORD_VERIFIER ;;;
  removeItem ENCRYPTED_DATA ;;;
  removeItem IS_INITIALIZED.

End Storage.

(** ** passwordGenerator.ts *)

Section PasswordGenerator.
Context `{WebPlatform}.

Definition LOWERCASE : jsstring := js "abcdefghijklmnopqrstuvwxyz".
Definition UPPERCASE : jsstring := js "ABCDEFGHIJKLMNOPQRSTUVWXYZ".
Definition NUMBERS : jsstring := js "0123456789".
Definition SYMBOLS : jsstring := js "!@#$%^&*()_+-=[]{}|;:,.<>?".

Record PasswordOptions := mkPasswordOptions {
  opt_length : Z;                    (* length *)
  includeLowercase : bool;
  includeUppercase : bool;
  includeNumbers : bool;
  includeSymbols : bool
}.

Definition defaultPasswordOptions : PasswordOptions :=
  mkPasswordOptions 16 true true true true.

(** The four character classes of a policy. *)
Inductive CharClass := Lower | Upper | Digit | Symbol.

Definition class_chars (cls : CharClass) : jsstring :=
  match cls with
  | Lower => LOWERCASE
  | Upper => UPPERCASE
  | Digit => NUMBERS
  | Symbol => SYMBOLS
  end.

Definition enabled (options : PasswordOptions) (cls : CharClass) : bool :=
  match cls with
  | Lower => includeLowercase options
  | Upper => includeUppercase options
  | Digit => includeNumbers options
  | Symbol => includeSymbols options
  end.

Definition enabled_count (options : PasswordOptions) : nat :=
  length (List.filter (enabled options) [Lower; Upper; Digit; Symbol]).

Definition NO_CHARSET : string := "少なくとも1つの文字種類を選択してください".

(** One [if (options.includeX) { charset += X; requiredChars.push(X[...]) }]. *)
Definition add_class (enabled : bool) (class : jsstring) (acc : jsstring * list N)
  : async (jsstring * list N) :=
  if enabled then
    i <- randomIndex (length class) ;;
    ret (fst acc ++ class, snd acc ++ [nth i class 0])
  else ret acc.

(** [[a[i], a[j]] = [a[j], a[i]]] *)
Definition swap (a : list N) (i j : nat) : list N :=
  let ai := nth i a 0 in
  let aj := nth j a 0 in
  <[j := ai]> (<[i := aj]> a).

(** [for (let i = ...; i > 0; i--)], entered with [i]. *)
Fixpoint shuffle (shuffleValues : list N) (i : nat) (passwordChars : list N) : list N :=
  match i with
  | O => passwordChars
  | S i' =>
      let j := N.to_nat (nth i shuffleValues 0 mod N.of_nat (i + 1)) in
      shuffle shuffleValues i' (swap passwordChars i j)
  end.

(** From the check of the character set to the end of [generatePassword]. *)
Definition build_password (options : PasswordOptions) (charset : jsstring)
  (requiredChars : list N) : async jsstring :=
  if (length charset =? 0)%nat then throw (Error NO_CHARSET)
  else
    let effectiveLength := Z.max (opt_length options) (Z.of_nat (length requiredChars)) in
    randomValues <- getRandomUint32s
                      (Z.to_nat (effectiveLength - Z.of_nat (length requiredChars))) ;;
    let passwordChars :=
      requiredChars
      ++ map (fun value => nth (N.to_nat (value mod N.of_nat (length charset))) charset 0)
             randomValues in
    shuffleValues <- getRandomUint32s (length passwordChars) ;;
    ret (shuffle shuffleValues (length passwordChars - 1) passwordChars).

Definition generatePassword (options : PasswordOptions) : async jsstring :=
  acc <- add_class (includeLowercase options) LOWERCASE ([], []) ;;
  acc <- add_class (includeUppercase options) UPPERCASE acc ;;
  acc <- add_class (includeNumbers options) NUMBERS acc ;;
  acc <- add_class (includeSymbols options) SYMBOLS acc ;;
  let '(charset, requiredChars) := acc in
  build_password options charset requiredChars.

(** What [charset] and [requiredChars] are once the classes [seen] have
    been gone through: the characters of the enabled ones, and one
    character of each. *)
Definition classes_added (options : PasswordOptions) (seen : list CharClass)
  (acc : jsstring * list N) : Prop :=
  fst acc = concat (map class_chars (List.filter (enabled options) seen))
  /\ Forall2 (fun cls c => In c (class_chars cls))
             (List.filter (enabled options) seen) (snd acc).

(** *** evaluatePasswordStrength *)

Inductive Level := weak | fair | good | strong.

Record Strength := mkStrength {
  score : Z;
  level : Level;
  feedback : list string
}.

Definition ADD_LOWERCASE : string := "小文字を追加してください".
Definition ADD_UPPERCASE : string := "大文字を追加してください".
Definition ADD_NUMBER : string := "数字を追加してください".
Definition ADD_SYMBOL : string := "記号を追加してください".
Definition AVOID_REPEAT : string := "同じ文字の連続を避けてください".
Definition AVOID_COMMON : string := "一般的なパターンを避けてください".
Definition TOO_SHORT : string := "パスワードが短すぎます".
Definition IS_STRONG : string := "強力なパスワードです！".

(** The character classes of the four regular expressions. *)
Definition is_lowercase (c : N) : bool := (97 <=? c) && (c <=? 122).
Definition is_uppercase (c : N) : bool := (65 <=? c) && (c <=? 90).
Definition is_number (c : N) : bool := (48 <=? c) && (c <=? 57).
Definition is_symbol (c : N) : bool := existsb (N.eqb c) SYMBOLS.

(** [.] matches any code unit that is not a line terminator. *)
Definition is_line_terminator (c : N) : bool :=
  (c =? 10) || (c =? 13) || (c =? 0x2028) || (c =? 0x2029).

(** [/(.)\1{2,}/.test(password)] *)
Fixpoint has_repeat (s : jsstring) : bool :=
  match s with
  | a :: rest =>
      match rest with
      | b :: c :: _ =>
          (negb (is_line_terminator a) && (a =? b) && (b =? c)) || has_repeat rest
      | _ => false
      end
  | [] => false
  end.

Definition commonPatterns : list jsstring :=
  [js "123"; js "abc"; js "qwerty"; js "password"; js "admin"].

(** The class tests of the evaluator, by class. *)
Definition in_class (cls : CharClass) (c : N) : bool :=
  match cls with
  | Lower => is_lowercase c
  | Upper => is_uppercase c
  | Digit => is_number c
  | Symbol => is_symbol c
  end.

Definition has_class (cls : CharClass) (password_ : jsstring) : bool :=
  existsb (in_class cls) password_.

(** Some common pattern occurs in the password, whatever the case. *)
Definition has_common (password_ : jsstring) : bool :=
  existsb (includes (toLowerCase password_)) commonPatterns.

(** The loop over [commonPatterns], with its [break]. *)
Fixpoint penalize_common (lowered : jsstring) (patterns : list jsstring)
  (st : Z * list string) : Z * list string :=
  match patterns with
  | [] => st
  | pattern :: rest =>
      if includes lowered pattern
      then (fst st - 15, snd st ++ [AVOID_COMMON])%Z
      else penalize_common lowered rest st
  end.

(** [if (test) score += points; else feedback.push(message)] *)
Definition reward (test : bool) (points : Z) (message : string)
  (st : Z * list string) : Z * list string :=
  if test then (fst st + points, snd st)%Z else (fst st, snd st ++ [message]).

Definition length_points (n : nat) : Z :=
  ((if (8 <=? n)%nat then 10 else 0) + (if (12 <=? n)%nat then 15 else 0)
   + (if (16 <=? n)%nat then 15 else 0) + (if (20 <=? n)%nat then 10 else 0))%Z.

(** The score and the feedback when the loop over [commonPatterns] is
    reached. *)
Definition before_common (password_ : jsstring) : Z * list string :=
  let st := (length_points (length password_), []) in
  let st := reward (existsb is_lowercase password_) 10 ADD_LOWERCASE st in
  let st := reward (existsb is_uppercase password_) 10 ADD_UPPERCASE st in
  let st := reward (existsb is_number password_) 10 ADD_NUMBER st in
  let st := reward (existsb is_symbol password_) 15 ADD_SYMBOL st in
  if has_repeat password_ then (fst st - 10, snd st ++ [AVOID_REPEAT])%Z else st.

(** The score and the feedback before the score is clamped. *)
Definition raw_strength (password_ : jsstring) : Z * list string :=
  penalize_common (toLowerCase password_) commonPatterns (before_common password_).

Definition evaluatePasswordStrength (password_ : jsstring) : Strength :=
  let '(raw, feedback_) := raw_strength password_ in
  let score_ := Z.max 0 (Z.min 100 raw) in
  if (score_ <? 30)%Z then
    mkStrength score_ weak
      (if (length password_ <? 8)%nat then TOO_SHORT :: feedback_ else feedback_)
  else if (score_ <? 50)%Z then mkStrength score_ fair feedback_
  else if (score_ <? 75)%Z then mkStrength score_ good feedback_
  else
    mkStrength score_ strong
      (if (length feedback_ =? 0)%nat then feedback_ ++ [IS_STRONG] else feedback_).

End PasswordGenerator.

(** ** An executable platform

    Small stand-ins for the browser primitives, on which the model runs:
    they satisfy [aead_correct] and [json_correct], and [toLowerCase] is the
    browser's on ASCII text. *)

Module Sim.

Definition tag (key iv : Uint8Array) : list N :=
  take 16 (map Byte.to_N (key ++ iv) ++ replicate 16 0).

Definition seal (key iv data : Uint8Array) : Uint8Array :=
  map byte_of_N (tag key iv) ++ data.

Definition unseal (key iv data : Uint8Array) : option Uint8Array :=
  if bool_decide (map Byte.to_N (take 16 data) = tag key iv)
  then Some (drop 16 data) else None.

Definition kdf (password_ salt : Uint8Array) (iterations bits : N) : Uint8Array :=
  take (N.to_nat (bits / 8)) (password_ ++ salt ++ replicate (N.to_nat (bits / 8)) x00).

#[export] Instance PasswordEntry_eq_dec : EqDecision PasswordEntry.
Proof. solve_decision. Defined.

(** An entry as the list of its nine properties. *)
Definition optional (v : option jsstring) : jsstring :=
  match v with
  | None => []
  | Some s => 1 :: s
  end.

Definition optional_inv (s : jsstring) : option jsstring :=
  match s with
  | [] => None
  | _ :: s' => Some s'
  end.

Definition properties (e : PasswordEntry) : list jsstring :=
  [entry_id e; serviceName e; username e; password e;
   optional (url e); optional (notes e); optional (category e);
   createdAt e; updatedAt e].

Definition of_properties (l : list jsstring) : option PasswordEntry :=
  match l with
  | [a; b; c; d; e; f; g; h; i] =>
      Some (mkPasswordEntry a b c d (optional_inv e) (optional_inv f)
                            (optional_inv g) h i)
  | _ => None
  end.

#[export] Instance PasswordEntry_countable : Countable PasswordEntry.
Proof.
  refine (inj_countable properties of_properties _).
  intros [? ? ? ? [?|] [?|] [?|] ? ?]; reflexivity.
Defined.

(** A collection is written as the binary digits of its code. *)
Fixpoint digits (p : positive) : jsstring :=
  match p with
  | xH => []
  | xO q => 48 :: digits q
  | xI q => 49 :: digits q
  end.

Fixpoint number (s : jsstring) : option positive :=
  match s with
  | [] => Some xH
  | c :: rest =>
      match number rest with
      | Some q => if c =? 48 then Some (xO q)
                  else if c =? 49 then Some (xI q) else None
      | None => None
      end
  end.

Definition stringify (c : list PasswordEntry) : jsstring :=
  91 :: digits (encode c) ++ [93].

Definition parse (s : jsstring) : option (list PasswordEntry) :=
  match s with
  | 91 :: rest =>
      match rev rest with
      | 93 :: ds => match number (rev ds) with
                    | Some p => decode p
                    | None => None
                    end
      | _ => None
      end
  | _ => None
  end.

Definition lower (s : jsstring) : jsstring :=
  map (fun c => if is_uppercase c then c + 32 else c) s.

#[export] Instance platform : WebPlatform := {|
  PBKDF2_SHA256 := kdf;
  AES_GCM_encrypt := seal;
  AES_GCM_decrypt := unseal;
  JSON_stringify := stringify;
  JSON_parse := parse;
  toLowerCase := lower
|}.

(** A world with empty storage. *)
Definition world : World :=
  mkWorld ∅ (fun i => N.of_nat (7 * i + 3))
          0 (fun t => js "2026-01-01T00:00:0" ++ [48 + N.of_nat (t mod 10)] ++ js "Z") 0.

(** Two entries, and a world in which they have been saved under the
    password ["Tr0ub4dor&3"]. *)
Definition mail : PasswordEntry :=
  mkPasswordEntry (js "id-1") (js "Mail") (js "a@b.com") (js "x")
                  None None (Some (js "Work"))
                  (js "2025-12-31T10:00:00Z") (js "2025-12-31T10:00:00Z").

Definition bank : PasswordEntry :=
  mkPasswordEntry (js "id-2") (js "Bank") (js "alice") (js "y")
                  (Some (js "https://bank.example")) None None
                  (js "2025-12-31T11:00:00Z") (js "2025-12-31T11:00:00Z").

Definition master : jsstring := js "Tr0ub4dor&3".

Definition vault : World := snd (savePasswords [mail; bank] master world).

End Sim.

(** ** storage.ts: addPassword *)

(** [crypto.randomUUID()]: sixteen random bytes, the version and variant
    bits set, written as lower-case hexadecimal in groups of 8-4-4-4-12. *)
Definition hex_digit (n : N) : N := if n <? 10 then 48 + n else 87 + n.

Definition hex_byte (b : N) : jsstring := [hex_digit (b / 16); hex_digit (b mod 16)].

Definition uuid_bytes (random : list N) : list N :=
  let bytes := map (fun v => v mod 256) random in
  <[8%nat := 128 + nth 8 bytes 0 mod 64]> (<[6%nat := 64 + nth 6 bytes 0 mod 16]> bytes).

Definition uuid_text (bytes : list N) : jsstring :=
  flat_map hex_byte (take 4 bytes) ++ [45]
  ++ flat_map hex_byte (take 2 (drop 4 bytes)) ++ [45]
  ++ flat_map hex_byte (take 2 (drop 6 bytes)) ++ [45]
  ++ flat_map hex_byte (take 2 (drop 8 bytes)) ++ [45]
  ++ flat_map hex_byte (drop 10 bytes).

Definition next_uuid (w : World) : jsstring := uuid_text (uuid_bytes (draw 16 w)).

Definition randomUUID : async jsstring :=
  fun w => (Ok (next_uuid w), advance 16 w).

(** [Omit<PasswordEntry, 'id' | 'createdAt' | 'updatedAt'>] *)
Record NewEntry := mkNewEntry {
  new_serviceName : jsstring;
  new_username : jsstring;
  new_password : jsstring;
  new_url : option jsstring;
  new_notes : option jsstring;
  new_category : option jsstring
}.

Section AddPassword.
Context `{WebPlatform}.

Definition addPassword (entry : NewEntry) (masterPassword : jsstring)
  : async PasswordEntry :=
  passwords <- getPasswords masterPassword ;;
  id_ <- randomUUID ;;
  created <- nowISOString ;;
  updated <- nowISOString ;;
  let newEntry :=
    {| entry_id := id_;
       serviceName := new_serviceName entry;
       username := new_username entry;
       password := new_password entry;
       url := new_url entry;
       notes := new_notes entry;
       category := new_category entry;
       createdAt := created;
       updatedAt := updated |} in
  savePasswords (passwords ++ [newEntry]) masterPassword ;;;
  ret newEntry.

End AddPassword.

(** The entry [addPassword] makes of [entry] when it is called in [w]. *)
Definition added_entry (entry : NewEntry) (w : World) : PasswordEntry :=
  mkPasswordEntry (next_uuid w) (new_serviceName entry) (new_username entry)
                  (new_password entry) (new_url entry) (new_notes entry)
                  (new_category entry) (clock w (ticks w)) (clock w (S (ticks w))).

(** ** What TextDecoder gives back of a string *)


(** ** contexts/AuthContext.tsx *)

Module AuthContext.

(** The state of the provider. *)
Record Session := mkSession {
  isAuthenticated : bool;
  isInitialized : bool;
  isLoading : bool;
  masterPassword : option jsstring      (* [None] is [null] *)
}.

Definition initial : Session := mkSession false false true None.

(** A session holds the master password exactly when it is authenticated. *)
Definition consistent (s : Session) : Prop :=
  isAuthenticated s = true <-> is_Some (masterPassword s).

Section Provider.
Context `{WebPlatform}.

(** The effect that runs when the provider is mounted. *)
Definition checkInitialization (hasWindow : bool) (s : Session) (w : World) : Session :=
  mkSession (isAuthenticated s) (isAppInitialized hasWindow w) false (masterPassword s).

(** [login]: the value returned, the state and the world afterwards. *)
Definition login (password_ : jsstring) (s : Session) (w : World)
  : result bool * Session * World :=
  match validateMasterPassword password_ w with
  | (Ok true, w') =>
      (Ok true, mkSession true (isInitialized s) (isLoading s) (Some password_), w')
  | (Ok false, w') => (Ok false, s, w')
  | (Err _, w') => (Ok false, s, w')          (* catch *)
  end.

Definition logout (s : Session) : Session :=
  mkSession false (isInitialized s) (isLoading s) None.

Definition setup (password_ : jsstring) (s : Session) (w : World)
  : result unit * Session * World :=
  match initializeApp password_ w with
  | (Ok _, w') => (Ok tt, mkSession true true (isLoading s) (Some password_), w')
  | (Err e, w') => (Err e, s, w')
  end.

End Provider.

End AuthContext.

(** ** components/LoginScreen.tsx *)

Module LoginScreen.

(** The state of the form. *)
Record Form := mkForm {
  password : jsstring;
  confirmPassword : jsstring;
  showPassword : bool;
  error : string;
  isLoading : bool
}.

Definition WRONG_PASSWORD : string := "マスターパスワードが正しくありません".
Definition LOGIN_FAILED : string := "ログインに失敗しました".
Definition PASSWORD_TOO_SHORT : string := "パスワードは8文字以上で設定してください".
Definition MISMATCH : string := "パスワードが一致しません".
Definition SETUP_FAILED : string := "セットアップに失敗しました".

Definition with_error (f : Form) (message : string) (loading : bool) : Form :=
  mkForm (password f) (confirmPassword f) (showPassword f) message loading.

Section Handlers.
Context `{WebPlatform}.

(** [handleLogin]: the form, the session and the world when it is done. *)
Definition handleLogin (f : Form) (s : AuthContext.Session) (w : World)
  : Form * AuthContext.Session * World :=
  match AuthContext.login (password f) s w with
  | (Ok success, s', w') =>
      (with_error f (if success then "" else WRONG_PASSWORD) false, s', w')
  | (Err _, s', w') => (with_error f LOGIN_FAILED false, s', w')
  end.

(** [handleSetup] *)
Definition handleSetup (f : Form) (s : AuthContext.Session) (w : World)
  : Form * AuthContext.Session * World :=
  if (length (password f) <? 8)%nat then
    (with_error f PASSWORD_TOO_SHORT (isLoading f), s, w)
  else if negb (bool_decide (password f = confirmPassword f)) then
    (with_error f MISMATCH (isLoading f), s, w)
  else
    match AuthContext.setup (password f) s w with
    | (Ok _, s', w') => (with_error f "" false, s', w')
    | (Err _, s', w') => (with_error f SETUP_FAILED false, s', w')
    end.

End Handlers.

End LoginScreen.

(** ** components/PasswordList.tsx: the filter of the list *)

Section PasswordList.
Context `{WebPlatform}.



End PasswordList.

(** ** More of the executable platform *)

Module SimMore.

Definition note : NewEntry :=
  mkNewEntry (js "Wiki") (js "bob") (js "z") None (Some (js "shared")) None.

End SimMore.

(** * Proofs *)

(** ** Arithmetic and bytes *)

Ltac cases_cmp :=
  repeat match goal with
    | |- context [N.ltb ?a ?b] => destruct (N.ltb_spec a b)
    | |- context [N.leb ?a ?b] => destruct (N.leb_spec a b)
    | |- context [N.eqb ?a ?b] => destruct (N.eqb_spec a b)
    | H : context [N.ltb ?a ?b] |- _ => destruct (N.ltb_spec a b)
    | H : context [N.leb ?a ?b] |- _ => destruct (N.leb_spec a b)
    | H : context [N.eqb ?a ?b] |- _ => destruct (N.eqb_spec a b)
    end; simpl in *.

Ltac divmod := zify; Z.to_euclidean_division_equations; lia.

Lemma to_N_byte_of_N (n : N) : n < 256 -> Byte.to_N (byte_of_N n) = n.
Proof.
  intros Hn. unfold byte_of_N. rewrite N.mod_small by assumption.
  destruct (Byte.of_N n) as [b|] eqn:E.
  - simpl. now apply Byte.to_of_N.
  - apply Byte.of_N_None_iff in E. lia.
Qed.

Lemma byte_of_N_to_N (b : byte) : byte_of_N (Byte.to_N b) = b.
Proof.
  unfold byte_of_N. pose proof (Byte.to_N_bounded b).
  rewrite N.mod_small by lia. now rewrite Byte.of_to_N.
Qed.

Lemma map_byte_of_N_to_N (bs : Uint8Array) : map byte_of_N (map Byte.to_N bs) = bs.
Proof.
  induction bs as [|b bs IH]; simpl; [reflexivity|].
  now rewrite byte_of_N_to_N, IH.
Qed.

Lemma map_to_N_byte_of_N (ns : list N) :
  Forall (fun n => n < 256) ns -> map Byte.to_N (map byte_of_N ns) = ns.
Proof.
  induction 1 as [|n ns Hn _ IH]; simpl; [reflexivity|].
  now rewrite to_N_byte_of_N, IH.
Qed.

Lemma bytes_below_256 (bs : Uint8Array) : Forall (fun n => n < 256) (map Byte.to_N bs).
Proof.
  induction bs as [|b bs IH]; simpl; constructor; [|assumption].
  pose proof (Byte.to_N_bounded b). lia.
Qed.

(** Induction three elements at a time. *)
Lemma list_ind3 {A} (P : list A -> Prop) :
  P [] -> (forall a, P [a]) -> (forall a b, P [a; b]) ->
  (forall a b c l, P l -> P (a :: b :: c :: l)) ->
  forall l, P l.
Proof.
  intros H0 H1 H2 H3 l.
  assert (Hall : forall n l, (length l <= n)%nat -> P l).
  { clear l. induction n as [|n IH]; intros [|a [|b [|c l]]] Hl; simpl in Hl;
      try apply H0; try apply H1; try apply H2; try lia.
    apply H3, IH. lia. }
  apply (Hall (length l)). lia.
Qed.

(** ** Base64 *)

Module Base64Facts.
Import Base64.

Lemma value_of_char_of (s : N) : s < 64 -> value_of (char_of s) = Some s.
Proof.
  intros Hs. unfold value_of, char_of. cases_cmp; try lia; f_equal; lia.
Qed.

Lemma char_of_not_pad (s : N) : (char_of s =? PAD) = false.
Proof. unfold char_of, PAD. cases_cmp; try reflexivity; lia. Qed.

Lemma char_of_not_whitespace (s : N) : is_ascii_whitespace (char_of s) = false.
Proof. unfold is_ascii_whitespace, char_of. cases_cmp; try reflexivity; lia. Qed.

Lemma sextets_below_64 (bs : list N) :
  Forall (fun n => n < 256) bs -> Forall (fun s => s < 64) (sextets bs).
Proof.
  induction bs as [| a | a b | a b c l IH] using list_ind3; intros Hb; simpl.
  - constructor.
  - inversion_clear Hb. repeat constructor; divmod.
  - inversion_clear Hb as [|? ? Ha Hb']. inversion_clear Hb'.
    repeat constructor; divmod.
  - inversion_clear Hb as [|? ? Ha Hb']. inversion_clear Hb' as [|? ? Hb Hc'].
    inversion_clear Hc' as [|? ? Hc Hl].
    repeat (constructor; [divmod|]). now apply IH.
Qed.

Lemma bytes_of_sextets (bs : list N) :
  Forall (fun n => n < 256) bs -> bytes_of (sextets bs) = bs.
Proof.
  induction bs as [| a | a b | a b c l IH] using list_ind3; intros Hb.
  - reflexivity.
  - inversion_clear Hb. simpl. f_equal. divmod.
  - inversion_clear Hb as [|? ? Ha Hb']. inversion_clear Hb'.
    simpl. f_equal; [divmod|]. f_equal. divmod.
  - inversion_clear Hb as [|? ? Ha Hb']. inversion_clear Hb' as [|? ? Hb Hc'].
    inversion_clear Hc' as [|? ? Hc Hl].
    change (sextets (a :: b :: c :: l))
      with (a / 4 :: (a mod 4) * 16 + b / 16 :: (b mod 16) * 4 + c / 64
            :: c mod 64 :: sextets l).
    cbn [bytes_of]. rewrite IH by assumption.
    f_equal; [divmod|]. f_equal; [divmod|]. f_equal. divmod.
Qed.

Lemma values_chars (vs : list N) :
  Forall (fun s => s < 64) vs -> values (map char_of vs) = Some vs.
Proof.
  induction 1 as [|v vs Hv _ IH]; simpl; [reflexivity|].
  now rewrite value_of_char_of, IH.
Qed.

Lemma sextets_length (bs : list N) :
  exists k, (length (sextets bs) + (3 - length bs mod 3) mod 3 = 4 * k)%nat
            /\ (length (sextets bs) mod 4 <> 1)%nat.
Proof.
  induction bs as [| a | a b | a b c l IH] using list_ind3.
  - exists 0%nat. split; [reflexivity | simpl; lia].
  - exists 1%nat. split; [reflexivity | simpl; lia].
  - exists 1%nat. split; [reflexivity | simpl; lia].
  - destruct IH as (k & Hk & Hm). exists (S k).
    change (sextets (a :: b :: c :: l))
      with (a / 4 :: (a mod 4) * 16 + b / 16 :: (b mod 16) * 4 + c / 64
            :: c mod 64 :: sextets l).
    cbn [length].
    replace (S (S (S (length l))) mod 3)%nat with (length l mod 3)%nat.
    2:{ replace (S (S (S (length l)))) with (length l + 1 * 3)%nat by lia.
        now rewrite Nat.Div0.mod_add. }
    split; [lia|].
    replace (S (S (S (S (length (sextets l)))))) with (length (sextets l) + 1 * 4)%nat by lia.
    now rewrite Nat.Div0.mod_add.
Qed.

Lemma filter_whitespace_encode (bs : list N) :
  filter (fun c => is_ascii_whitespace c = false) (encode_bytes bs) = encode_bytes bs.
Proof.
  unfold encode_bytes. rewrite filter_app. f_equal.
  - induction (sextets bs) as [|v vs IH]; simpl; [reflexivity|].
    rewrite filter_cons_True by apply char_of_not_whitespace. now rewrite IH.
  - unfold padding. induction ((3 - length bs mod 3) mod 3)%nat as [|n IH]; simpl;
      [reflexivity|].
    rewrite filter_cons_True by reflexivity. now rewrite IH.
Qed.

Lemma rev_chars_head (vs : list N) :
  vs <> [] -> exists v r, rev (map char_of vs) = char_of v :: r.
Proof.
  intros Hne. destruct (rev vs) as [|v r] eqn:E.
  - apply (f_equal (@rev N)) in E. rewrite rev_involutive in E. now subst.
  - exists v, (map char_of r). now rewrite <- map_rev, E.
Qed.

Lemma strip_padding_encode (bs : list N) :
  strip_padding (encode_bytes bs) = map char_of (sextets bs).
Proof.
  destruct (sextets_length bs) as (k & Hk & _).
  unfold strip_padding.
  replace (length (encode_bytes bs) mod 4 =? 0)%nat with true.
  2:{ symmetry. apply Nat.eqb_eq. unfold encode_bytes, padding.
      rewrite length_app, length_map, repeat_length, Hk, Nat.mul_comm.
      apply Nat.Div0.mod_mul. }
  unfold encode_bytes, padding. rewrite rev_app_distr.
  assert (Hlt : (length bs mod 3 < 3)%nat) by (apply Nat.mod_upper_bound; lia).
  destruct (length bs mod 3)%nat as [|[|[|?]]] eqn:Hm; try lia;
    cbn [Nat.sub Nat.modulo Nat.divmod fst snd repeat rev app].
  - rewrite (app_nil_r (map char_of (sextets bs))).
    destruct (sextets bs) as [|v vs] eqn:Es; [reflexivity|].
    destruct (rev_chars_head (v :: vs)) as (v' & r & Hr); [discriminate|].
    rewrite Hr. destruct r; rewrite char_of_not_pad; reflexivity.
  - change (PAD =? PAD) with true. cbn iota. apply rev_involutive.
  - assert (Hne : sextets bs <> []).
    { destruct bs as [|a [|b [|c l]]]; simpl in *; discriminate. }
    destruct (rev_chars_head _ Hne) as (v & r & Hr).
    rewrite Hr. change (PAD =? PAD) with true. cbn iota.
    rewrite char_of_not_pad.
    change (rev r ++ [char_of v]) with (rev (char_of v :: r)).
    rewrite <- Hr. apply rev_involutive.
Qed.

Lemma atob_encode (bs : list N) :
  Forall (fun n => n < 256) bs -> atob (encode_bytes bs) = Ok bs.
Proof.
  intros Hb. unfold atob.
  rewrite filter_whitespace_encode, strip_padding_encode, length_map.
  destruct (sextets_length bs) as (k & _ & Hm).
  destruct (Nat.eqb_spec (length (sextets bs) mod 4) 1) as [E|_]; [contradiction|].
  rewrite values_chars by now apply sextets_below_64.
  now rewrite bytes_of_sextets.
Qed.

Lemma btoa_bytes (bs : Uint8Array) :
  btoa (map Byte.to_N bs) = Ok (encode_bytes (map Byte.to_N bs)).
Proof.
  unfold btoa.
  replace (existsb (fun c => 255 <? c) (map Byte.to_N bs)) with false; [reflexivity|].
  symmetry. induction bs as [|b bs IH]; simpl; [reflexivity|].
  rewrite IH. pose proof (Byte.to_N_bounded b).
  destruct (N.ltb_spec 255 (Byte.to_N b)); [lia | reflexivity].
Qed.

End Base64Facts.

(** ** UTF-8 and UTF-16 *)

Module TextCodingFacts.
Import TextCoding.

Lemma well_formed_ind (P : jsstring -> Prop) :
  P [] ->
  (forall u rest, is_lead u = false -> is_trail u = false -> u < 0x10000 ->
                  well_formed rest = true -> P rest -> P (u :: rest)) ->
  (forall u t rest, is_lead u = true -> is_trail t = true ->
                    well_formed rest = true -> P rest -> P (u :: t :: rest)) ->
  forall s, well_formed s = true -> P s.
Proof.
  intros Hnil Hunit Hpair s.
  assert (Hall : forall n s, (length s <= n)%nat -> well_formed s = true -> P s).
  { clear s. induction n as [|n IH]; intros [|u rest] Hlen Hwf; simpl in Hlen;
      try apply Hnil; try lia.
    simpl in Hwf. destruct (is_lead u) eqn:Hl.
    - destruct rest as [|t rest']; [discriminate|].
      apply andb_true_iff in Hwf as [Ht Hwf]. simpl in Hlen.
      apply Hpair; try assumption. apply IH; [lia | assumption].
    - apply andb_true_iff in Hwf as [Hwf Hrest].
      apply andb_true_iff in Hwf as [Ht Hu].
      apply negb_true_iff in Ht. apply N.ltb_lt in Hu.
      apply Hunit; try assumption. apply IH; [lia | assumption]. }
  apply (Hall (length s)). lia.
Qed.

Lemma lead_bounds (u : N) : is_lead u = true <-> 0xD800 <= u <= 0xDBFF.
Proof. unfold is_lead. rewrite andb_true_iff, !N.leb_le. reflexivity. Qed.

Lemma trail_bounds (u : N) : is_trail u = true <-> 0xDC00 <= u <= 0xDFFF.
Proof. unfold is_trail. rewrite andb_true_iff, !N.leb_le. reflexivity. Qed.

Lemma not_lead_bounds (u : N) : is_lead u = false <-> u < 0xD800 \/ 0xDBFF < u.
Proof. unfold is_lead. rewrite andb_false_iff, !N.leb_gt. reflexivity. Qed.

Lemma not_trail_bounds (u : N) : is_trail u = false <-> u < 0xDC00 \/ 0xDFFF < u.
Proof. unfold is_trail. rewrite andb_false_iff, !N.leb_gt. reflexivity. Qed.

(** The code points of a well-formed string are scalar values, *)
Lemma code_points_scalar (s : jsstring) :
  well_formed s = true -> Forall scalar_value (code_points s).
Proof.
  revert s. apply (well_formed_ind (fun s => Forall scalar_value (code_points s)));
    [| intros u rest Hl Ht Hu _ IH | intros u t rest Hl Ht _ IH].
  - constructor.
  - simpl. rewrite Hl, Ht. constructor; [|assumption].
    apply not_lead_bounds in Hl. apply not_trail_bounds in Ht.
    unfold scalar_value. lia.
  - simpl. rewrite Hl, Ht. constructor; [|assumption].
    apply lead_bounds in Hl. apply trail_bounds in Ht.
    unfold scalar_value. lia.
Qed.

(** and its code units are theirs. *)
Lemma utf16_units_code_points (s : jsstring) :
  well_formed s = true -> flat_map utf16_units (code_points s) = s.
Proof.
  revert s. apply (well_formed_ind (fun s => flat_map utf16_units (code_points s) = s));
    [| intros u rest Hl Ht Hu _ IH | intros u t rest Hl Ht _ IH].
  - reflexivity.
  - simpl. rewrite Hl, Ht. cbn [flat_map]. rewrite IH.
    unfold utf16_units. apply N.ltb_lt in Hu. now rewrite Hu.
  - simpl. rewrite Hl, Ht. cbn [flat_map]. rewrite IH.
    apply lead_bounds in Hl. apply trail_bounds in Ht.
    unfold utf16_units.
    destruct (N.ltb_spec (0x10000 + (u - 0xD800) * 1024 + (t - 0xDC00)) 0x10000); [lia|].
    cbn [app]. f_equal; [divmod|]. f_equal. divmod.
Qed.

Lemma head_code_points (s : jsstring) :
  well_formed s = true -> head s <> Some BOM -> head (code_points s) <> Some BOM.
Proof.
  revert s.
  apply (well_formed_ind
           (fun s => head s <> Some BOM -> head (code_points s) <> Some BOM));
    [intros Hh | intros u rest Hl Ht Hu _ _ Hh | intros u t rest Hl Ht _ _ Hh].
  - assumption.
  - simpl. now rewrite Hl, Ht.
  - simpl. rewrite Hl, Ht. simpl. apply lead_bounds in Hl. unfold BOM.
    intros [= E]. lia.
Qed.

Lemma strip_bom_id (cps : list N) : head cps <> Some BOM -> strip_bom cps = cps.
Proof.
  destruct cps as [|c rest]; [reflexivity|]. simpl.
  destruct (N.eqb_spec c BOM) as [->|]; [intros []; reflexivity | reflexivity].
Qed.

Lemma utf8_bytes_below_256 (cp : N) :
  cp < 0x110000 -> Forall (fun b => b < 256) (utf8_bytes cp).
Proof.
  intros Hcp. unfold utf8_bytes. cases_cmp; repeat (constructor; [divmod|]); constructor.
Qed.

(** The decoder, one byte at a time. *)
Lemma utf8_step_init (b : N) : utf8_step utf8_init b = utf8_lead b.
Proof. reflexivity. Qed.

Lemma utf8_step_continue (st : utf8_state) (b : N) :
  bytes_needed st <> 0 -> lower_boundary st <= b <= upper_boundary st ->
  utf8_step st b =
    if bytes_seen st + 1 =? bytes_needed st
    then (utf8_init, [code_point st * 64 + b mod 64])
    else (mk_utf8_state (code_point st * 64 + b mod 64) (bytes_seen st + 1)
                        (bytes_needed st) 0x80 0xBF, []).
Proof.
  intros Hn Hb. unfold utf8_step.
  destruct (N.eqb_spec (bytes_needed st) 0); [contradiction|].
  destruct (N.ltb_spec b (lower_boundary st)); [lia|].
  destruct (N.ltb_spec (upper_boundary st) b); [lia|]. reflexivity.
Qed.

Lemma utf8_run_cons (st : utf8_state) (b : N) (rest : list N) :
  utf8_run st (b :: rest) =
    snd (utf8_step st b) ++ utf8_run (fst (utf8_step st b)) rest.
Proof. simpl. now destruct (utf8_step st b). Qed.

Lemma utf8_lead_2 (b : N) :
  0xC2 <= b <= 0xDF -> utf8_lead b = (mk_utf8_state (b mod 32) 0 1 0x80 0xBF, []).
Proof. intros Hb. unfold utf8_lead. cases_cmp; try lia; reflexivity. Qed.

Lemma utf8_lead_3 (b : N) :
  0xE0 <= b <= 0xEF ->
  utf8_lead b = (mk_utf8_state (b mod 16) 0 2
                   (if b =? 0xE0 then 0xA0 else 0x80)
                   (if b =? 0xED then 0x9F else 0xBF), []).
Proof.
  intros Hb. unfold utf8_lead.
  destruct (N.leb_spec b 0x7F); [lia|].
  destruct (N.leb_spec 0xC2 b); [|lia].
  destruct (N.leb_spec b 0xDF); [lia|].
  destruct (N.leb_spec 0xE0 b); [|lia].
  destruct (N.leb_spec b 0xEF); [|lia]. reflexivity.
Qed.

Lemma utf8_lead_4 (b : N) :
  0xF0 <= b <= 0xF4 ->
  utf8_lead b = (mk_utf8_state (b mod 8) 0 3
                   (if b =? 0xF0 then 0x90 else 0x80)
                   (if b =? 0xF4 then 0x8F else 0xBF), []).
Proof.
  intros Hb. unfold utf8_lead.
  destruct (N.leb_spec b 0x7F); [lia|].
  destruct (N.leb_spec 0xC2 b); [|lia].
  destruct (N.leb_spec b 0xDF); [lia|].
  destruct (N.leb_spec 0xE0 b); [|lia].
  destruct (N.leb_spec b 0xEF); [lia|].
  destruct (N.leb_spec 0xF0 b); [|lia].
  destruct (N.leb_spec b 0xF4); [|lia]. reflexivity.
Qed.

(** A continuation byte [0x80 + x] in an open sequence. *)
Ltac continuation :=
  rewrite utf8_run_cons, utf8_step_continue;
  cbn [bytes_needed bytes_seen code_point lower_boundary upper_boundary];
  [ | discriminate | cases_cmp; divmod ].

Lemma utf8_run_bytes (cp : N) (rest : list N) :
  scalar_value cp ->
  utf8_run utf8_init (utf8_bytes cp ++ rest) = cp :: utf8_run utf8_init rest.
Proof.
  intros [Hmax Hsur]. unfold utf8_bytes.
  destruct (N.ltb_spec cp 0x80) as [H1|H1];
    [|destruct (N.ltb_spec cp 0x800) as [H2|H2];
      [|destruct (N.ltb_spec cp 0x10000) as [H3|H3]]];
    cbn [app]; rewrite utf8_run_cons, utf8_step_init.
  - unfold utf8_lead. destruct (N.leb_spec cp 0x7F); [reflexivity | lia].
  - rewrite utf8_lead_2 by divmod. cbn [fst snd app].
    continuation.
    change (0 + 1 =? 1) with true. cbn [fst snd app]. f_equal. divmod.
  - rewrite utf8_lead_3 by divmod. cbn [fst snd app].
    continuation.
    change (0 + 1 =? 2) with false. cbn [fst snd app].
    continuation.
    change (0 + 1 + 1 =? 2) with true. cbn [fst snd app]. f_equal. divmod.
  - rewrite utf8_lead_4 by divmod. cbn [fst snd app].
    continuation.
    change (0 + 1 =? 3) with false. cbn [fst snd app].
    continuation.
    change (0 + 1 + 1 =? 3) with false. cbn [fst snd app].
    continuation.
    change (0 + 1 + 1 + 1 =? 3) with true. cbn [fst snd app]. f_equal. divmod.
Qed.

Lemma utf8_run_flat_map (cps : list N) :
  Forall scalar_value cps -> utf8_run utf8_init (flat_map utf8_bytes cps) = cps.
Proof.
  induction 1 as [|cp cps Hcp _ IH]; [reflexivity|].
  cbn [flat_map]. now rewrite utf8_run_bytes, IH.
Qed.

Lemma flat_map_below_256 (cps : list N) :
  Forall scalar_value cps -> Forall (fun b => b < 256) (flat_map utf8_bytes cps).
Proof.
  induction 1 as [|cp cps [Hcp _] _ IH]; [constructor|].
  cbn [flat_map]. apply Forall_app. split; [|assumption].
  now apply utf8_bytes_below_256.
Qed.

(** [TextDecoder] gives back what [TextEncoder] was given, when that is
    well formed and does not begin with U+FEFF. *)
Lemma decode_encode_text (s : jsstring) :
  well_formed s = true -> head s <> Some BOM -> decode (encode s) = s.
Proof.
  intros Hwf Hbom. unfold decode, encode.
  pose proof (code_points_scalar s Hwf) as Hsc.
  rewrite map_to_N_byte_of_N by now apply flat_map_below_256.
  rewrite utf8_run_flat_map by assumption.
  rewrite strip_bom_id by now apply head_code_points.
  now apply utf16_units_code_points.
Qed.

End TextCodingFacts.

(** ** crypto.ts *)

Section CryptoFacts.
Context `{WebPlatform}.

Lemma draw_length (n : nat) (w : World) : length (draw n w) = n.
Proof. unfold draw. now rewrite length_map, length_seq. Qed.

Lemma next_salt_length (w : World) : length (next_salt w) = SALT_LENGTH.
Proof. unfold next_salt. now rewrite length_map, draw_length. Qed.

Lemma next_iv_length (w : World) : length (next_iv w) = IV_LENGTH.
Proof. unfold next_iv. now rewrite length_map, draw_length. Qed.

(** [encrypt] does not throw: it returns the sealed blob and leaves the
    storage as it was. *)
Lemma encrypt_run (plaintext password_ : jsstring) (w : World) :
  encrypt plaintext password_ w =
    (Ok (sealed plaintext password_ (next_salt w) (next_iv w)),
     advance IV_LENGTH (advance SALT_LENGTH w)).
Proof.
  unfold encrypt, deriveKey, bind, ret, lift, getRandomBytes.
  change (65536 <? N.of_nat SALT_LENGTH) with false.
  change (65536 <? N.of_nat IV_LENGTH) with false.
  cbn beta iota. now rewrite Base64Facts.btoa_bytes.
Qed.

Lemma sealed_not_empty (plaintext password_ : jsstring) (salt iv : Uint8Array) :
  length salt = SALT_LENGTH -> truthy (Some (sealed plaintext password_ salt iv)) = true.
Proof.
  intros Hs. unfold sealed. destruct salt as [|a [|b [|c salt]]]; try discriminate.
  reflexivity.
Qed.

(** [decrypt] reads no entropy and writes nothing. *)
Lemma decrypt_world (encryptedData password_ : jsstring) (w : World) :
  snd (decrypt encryptedData password_ w) = w.
Proof.
  unfold decrypt, deriveKey, bind, ret, lift, throw.
  destruct (Base64.atob encryptedData); cbn; [|reflexivity].
  now destruct (AES_GCM_decrypt _ _ _).
Qed.

Lemma decrypt_any_world (encryptedData password_ : jsstring) (w w' : World) :
  fst (decrypt encryptedData password_ w) = fst (decrypt encryptedData password_ w').
Proof.
  unfold decrypt, deriveKey, bind, ret, lift, throw.
  destruct (Base64.atob encryptedData); cbn; [|reflexivity].
  now destruct (AES_GCM_decrypt _ _ _).
Qed.

(** Opening a sealed blob with the password that sealed it. *)
Lemma decrypt_sealed (plaintext password_ : jsstring) (salt iv : Uint8Array) (w : World) :
  aead_correct -> length salt = SALT_LENGTH -> length iv = IV_LENGTH ->
  decrypt (sealed plaintext password_ salt iv) password_ w =
    (Ok (TextCoding.decode (TextCoding.encode plaintext)), w).
Proof.
  intros Haead Hs Hi. unfold decrypt, sealed, bind, lift.
  rewrite Base64Facts.atob_encode by apply bytes_below_256.
  rewrite map_byte_of_N_to_N.
  unfold deriveKey, bind, ret. cbn beta iota.
  rewrite (take_app_length' salt) by (symmetry; exact Hs).
  rewrite (drop_app_length' salt) by (symmetry; exact Hs).
  rewrite (take_app_length' iv) by (symmetry; exact Hi).
  rewrite (drop_app_add' salt) by (symmetry; exact Hs).
  rewrite (drop_app_length' iv) by (symmetry; exact Hi).
  now rewrite Haead.
Qed.

Lemma decrypt_encrypt (plaintext password_ : jsstring) (w w' : World) :
  aead_correct ->
  decrypt (sealed plaintext password_ (next_salt w) (next_iv w)) password_ w' =
    (Ok (TextCoding.decode (TextCoding.encode plaintext)), w').
Proof.
  intros Haead. apply decrypt_sealed;
    [assumption | apply next_salt_length | apply next_iv_length].
Qed.

Lemma verification_string_roundtrip :
  TextCoding.decode (TextCoding.encode VERIFICATION_STRING) = VERIFICATION_STRING.
Proof. apply TextCodingFacts.decode_encode_text; [reflexivity | discriminate]. Qed.

Lemma verifyPassword_run (password_ verifier : jsstring) (w : World) :
  verifyPassword password_ verifier w =
    (Ok (match fst (decrypt verifier password_ w) with
         | Ok decrypted => bool_decide (decrypted = VERIFICATION_STRING)
         | Err _ => false
         end), w).
Proof.
  unfold verifyPassword, try_catch, bind, ret.
  pose proof (decrypt_world verifier password_ w) as Hw.
  destruct (decrypt verifier password_ w) as [[decrypted|e] w']; simpl in *;
    now subst.
Qed.

Lemma verify_created (password_ : jsstring) (w w' : World) :
  aead_correct ->
  verifyPassword password_ (sealed VERIFICATION_STRING password_ (next_salt w) (next_iv w)) w'
  = (Ok true, w').
Proof.
  intros Haead. rewrite verifyPassword_run, decrypt_encrypt by assumption.
  cbn [fst]. now rewrite verification_string_roundtrip.
Qed.

End CryptoFacts.

(** ** The executable platform meets the assumptions *)

Module SimFacts.
Import Sim.

Lemma tag_length (key iv : Uint8Array) : length (tag key iv) = 16%nat.
Proof.
  unfold tag. rewrite length_take, length_app, length_replicate. lia.
Qed.

Lemma tag_below_256 (key iv : Uint8Array) : Forall (fun n => n < 256) (tag key iv).
Proof.
  unfold tag. apply Forall_take, Forall_app. split.
  - apply bytes_below_256.
  - apply Forall_replicate. lia.
Qed.

Lemma aead : @aead_correct platform.
Proof.
  intros key iv data. cbn. unfold unseal, seal.
  rewrite take_app_length' by now rewrite length_map, tag_length.
  rewrite drop_app_length' by now rewrite length_map, tag_length.
  rewrite map_to_N_byte_of_N by apply tag_below_256.
  now rewrite bool_decide_eq_true_2.
Qed.

Lemma number_digits (p : positive) : number (digits p) = Some p.
Proof. induction p as [p IH|p IH|]; simpl; now rewrite ?IH. Qed.

Lemma well_formed_low (s : jsstring) :
  Forall (fun u => u < 0xD800) s -> TextCoding.well_formed s = true.
Proof.
  induction 1 as [|u s Hu _ IH]; [reflexivity|]. simpl.
  destruct (TextCoding.is_lead u) eqn:Hl.
  { apply TextCodingFacts.lead_bounds in Hl. lia. }
  destruct (TextCoding.is_trail u) eqn:Ht.
  { apply TextCodingFacts.trail_bounds in Ht. lia. }
  rewrite IH. destruct (N.ltb_spec u 0x10000); [reflexivity | lia].
Qed.

Lemma digits_low (p : positive) : Forall (fun u => u < 0xD800) (digits p).
Proof. induction p; simpl; constructor; try assumption; lia. Qed.

Lemma json : @json_correct platform.
Proof.
  intros c. cbn. unfold parse, stringify. repeat split.
  - rewrite rev_app_distr. cbn [rev app].
    now rewrite rev_involutive, number_digits, decode_encode.
  - apply well_formed_low.
    apply Forall_app. split; [apply digits_low|].
    apply Forall_cons. split; [lia | apply Forall_nil_2].
  - discriminate.
Qed.

Lemma lower_nil : @toLowerCase platform [] = [].
Proof. reflexivity. Qed.

End SimFacts.

(** ** storage.ts *)

Section StorageFacts.
Context `{WebPlatform}.

Lemma getPasswords_world (masterPassword : jsstring) (w : World) :
  snd (getPasswords masterPassword w) = w.
Proof.
  unfold getPasswords, bind, getItem, try_catch, ret, throw.
  destruct (negb (truthy (localStorage w !! ENCRYPTED_DATA))); [reflexivity|].
  pose proof (decrypt_world (default [] (localStorage w !! ENCRYPTED_DATA))
                masterPassword w) as Hw.
  destruct (decrypt _ masterPassword w) as [[decrypted|e] w']; simpl in *; subst;
    [|reflexivity].
  now destruct (JSON_parse decrypted).
Qed.

(** What [getPasswords] returns, by what the data slot holds. *)
Lemma getPasswords_run (masterPassword : jsstring) (w : World) :
  fst (getPasswords masterPassword w) =
    if truthy (localStorage w !! ENCRYPTED_DATA) then
      match fst (decrypt (default [] (localStorage w !! ENCRYPTED_DATA)) masterPassword w) with
      | Ok decrypted =>
          match JSON_parse decrypted with
          | Some passwords => Ok passwords
          | None => Err (Error DECRYPT_FAILED)
          end
      | Err _ => Err (Error DECRYPT_FAILED)
      end
    else Ok [].
Proof.
  unfold getPasswords, bind, getItem, try_catch, ret, throw.
  destruct (truthy (localStorage w !! ENCRYPTED_DATA)); [|reflexivity].
  cbn [negb].
  destruct (decrypt _ masterPassword w) as [[decrypted|e] w']; [|reflexivity].
  cbn [fst]. now destruct (JSON_parse decrypted).
Qed.

Lemma getPasswords_eq (masterPassword : jsstring) (w : World) (r : result (list PasswordEntry)) :
  fst (getPasswords masterPassword w) = r -> getPasswords masterPassword w = (r, w).
Proof.
  intros <-. rewrite <- (getPasswords_world masterPassword w) at 3.
  now destruct (getPasswords masterPassword w).
Qed.

Lemma savePasswords_run (passwords : list PasswordEntry) (masterPassword : jsstring) (w : World) :
  savePasswords passwords masterPassword w =
    (Ok tt,
     mkWorld (<[ENCRYPTED_DATA :=
                  sealed (JSON_stringify passwords) masterPassword (next_salt w) (next_iv w)]>
                (localStorage w))
             (entropy w) (drawn w + SALT_LENGTH + IV_LENGTH) (clock w) (ticks w)).
Proof. unfold savePasswords, bind. now rewrite encrypt_run. Qed.

(** A collection that was sealed into the data slot is the collection
    that is read. *)
Lemma getPasswords_sealed (passwords : list PasswordEntry) (masterPassword : jsstring)
    (w0 w : World) :
  aead_correct -> json_correct ->
  localStorage w !! ENCRYPTED_DATA =
    Some (sealed (JSON_stringify passwords) masterPassword (next_salt w0) (next_iv w0)) ->
  fst (getPasswords masterPassword w) = Ok passwords.
Proof.
  intros Haead Hjson Hslot. destruct (Hjson passwords) as (Hparse & Hwf & Hbom).
  rewrite getPasswords_run, Hslot.
  rewrite sealed_not_empty by apply next_salt_length.
  unfold default; cbn [from_option id].
  rewrite decrypt_encrypt by assumption. cbn [fst].
  rewrite TextCodingFacts.decode_encode_text by assumption.
  now rewrite Hparse.
Qed.

End StorageFacts.

(** * The claims *)

Section CryptoClaims.
Context `{WebPlatform}.


(** C2: a verifier made from [k] verifies under [k]; and [verifyPassword]
    never throws, and returns true exactly when [decrypt] succeeds and
    returns the sentinel string. *)
Theorem verifyPassword_spec :
  aead_correct ->
  (forall k w, exists verifier w',
      createPasswordVerifier k w = (Ok verifier, w')
      /\ forall w'', verifyPassword k verifier w'' = (Ok true, w''))
  /\ (forall p v w, exists b,
        verifyPassword p v w = (Ok b, w)
        /\ (b = true <-> fst (decrypt v p w) = Ok VERIFICATION_STRING)).
Proof.
  intros Haead. split.
  - intros k w. unfold createPasswordVerifier. eexists _, _.
    split; [apply encrypt_run|]. intros w''. now apply verify_created.
  - intros p v w. eexists. split; [apply verifyPassword_run|].
    destruct (fst (decrypt v p w)) as [decrypted|e].
    + rewrite bool_decide_eq_true. split; congruence.
    + split; discriminate.
Qed.

End CryptoClaims.



Lemma verifyPassword_spec_witness :
  @aead_correct Sim.platform
  /\ exists verifier w',
       @createPasswordVerifier Sim.platform (js "Tr0ub4dor&3") Sim.world = (Ok verifier, w')
       /\ @verifyPassword Sim.platform (js "Tr0ub4dor&3") verifier w' = (Ok true, w')
       /\ @verifyPassword Sim.platform (js "wrong") verifier w' = (Ok false, w').
Proof.
  split; [apply SimFacts.aead|].
  destruct (@verifyPassword_spec Sim.platform SimFacts.aead) as [Hcreate Hverify].
  destruct (Hcreate (js "Tr0ub4dor&3") Sim.world) as (verifier & w' & Hrun & Hok).
  exists verifier, w'. split; [exact Hrun|]. split; [apply Hok|].
  destruct (Hverify (js "wrong") verifier w') as (b & Hb & Hiff).
  rewrite Hb. destruct b; [|reflexivity].
  exfalso. destruct Hiff as [Hiff _]. specialize (Hiff eq_refl).
  unfold createPasswordVerifier in Hrun. rewrite encrypt_run in Hrun.
  injection Hrun as <- <-. vm_compute in Hiff. discriminate.
Defined.

Section StorageClaims.
Context `{WebPlatform}.

(** C5 (as amended): [initializeApp] does not look at the initialized flag.
    In every state it succeeds and writes the three slots: a verifier that
    verifies the password, a sealed empty collection, and the flag. *)
Theorem initializeApp_writes_slots (masterPassword : jsstring) (w : World) :
  aead_correct -> json_correct ->
  exists verifier data w',
    initializeApp masterPassword w = (Ok tt, w')
    /\ localStorage w' =
         <[IS_INITIALIZED := js "true"]>
           (<[ENCRYPTED_DATA := data]>
              (<[PASSWORD_VERIFIER := verifier]> (localStorage w)))
    /\ fst (verifyPassword masterPassword verifier w') = Ok true
    /\ fst (getPasswords masterPassword w') = Ok []
    /\ isAppInitialized true w' = true.
Proof.
  intros Haead Hjson.
  unfold initializeApp, createPasswordVerifier, bind.
  rewrite !encrypt_run. unfold setItem. cbn [localStorage].
  eexists _, _, _. split; [reflexivity|]. cbn [localStorage].
  split; [reflexivity|]. split; [|split].
  - now rewrite verify_created.
  - eapply getPasswords_sealed; try assumption. cbn [localStorage].
    rewrite lookup_insert_ne by discriminate. apply lookup_insert_eq.
  - unfold isAppInitialized. cbn [negb localStorage].
    apply bool_decide_eq_true. apply lookup_insert_eq.
Qed.

(** C6 (as amended): [getPasswords] fails in one way only. Whether
    decryption fails or the decrypted text does not parse, the caller gets
    the same [Error] with the fixed message; the original error is
    dropped. *)
Theorem getPasswords_failure (masterPassword : jsstring) (w : World) (e : JsError) :
  fst (getPasswords masterPassword w) = Err e
  <-> e = Error DECRYPT_FAILED
      /\ exists data,
           localStorage w !! ENCRYPTED_DATA = Some data /\ data <> []
           /\ ((exists cause, fst (decrypt data masterPassword w) = Err cause)
               \/ (exists text, fst (decrypt data masterPassword w) = Ok text
                                /\ JSON_parse text = None)).
Proof.
  rewrite getPasswords_run. split.
  - destruct (localStorage w !! ENCRYPTED_DATA) as [[|c data]|] eqn:Hslot;
      cbn [truthy]; try discriminate.
    unfold default; cbn [from_option id].
    destruct (fst (decrypt (c :: data) masterPassword w)) as [text|cause] eqn:Hd.
    + destruct (JSON_parse text) eqn:Hp; [discriminate|].
      intros [= <-]. split; [reflexivity|]. exists (c :: data).
      split; [reflexivity|]. split; [discriminate|]. right. eauto.
    + intros [= <-]. split; [reflexivity|]. exists (c :: data).
      split; [reflexivity|]. split; [discriminate|]. left. eauto.
  - intros (-> & data & Hslot & Hne & Hcause). rewrite Hslot.
    destruct data as [|c data]; [contradiction|]. cbn [truthy].
    unfold default; cbn [from_option id].
    destruct Hcause as [[cause Hd]|(text & Hd & Hp)]; rewrite Hd; [reflexivity|].
    now rewrite Hp.
Qed.

End StorageClaims.

Lemma initializeApp_writes_slots_witness :
  @aead_correct Sim.platform /\ @json_correct Sim.platform
  /\ exists w',
       @initializeApp Sim.platform (js "Tr0ub4dor&3") Sim.world = (Ok tt, w')
       /\ fst (@getPasswords Sim.platform (js "Tr0ub4dor&3") w') = Ok []
       /\ isAppInitialized true w' = true.
Proof.
  split; [apply SimFacts.aead|]. split; [apply SimFacts.json|].
  destruct (@initializeApp_writes_slots Sim.platform (js "Tr0ub4dor&3") Sim.world
              SimFacts.aead SimFacts.json)
    as (verifier & data & w' & Hrun & _ & _ & Hlist & Hinit).
  exists w'. auto.
Defined.

(** C5 as stated fails: a second [initializeApp] on an initialized vault
    succeeds. *)
Lemma initializeApp_twice_counterexample :
  let w1 := snd (@initializeApp Sim.platform (js "first") Sim.world) in
  isAppInitialized true w1 = true
  /\ fst (@initializeApp Sim.platform (js "second") w1) = Ok tt.
Proof. vm_compute. split; reflexivity. Qed.

(** C6 as stated fails: a wrong password (decryption rejects) and a text
    that is not a collection (the parse fails) reach the caller as the same
    error, which is neither of the two that were thrown. *)
Lemma getPasswords_errors_counterexample :
  let k := js "k" in
  let w1 := snd (@savePasswords Sim.platform [] k Sim.world) in
  let w2 := snd (bind (@encrypt Sim.platform (js "not json") k)
                      (setItem ENCRYPTED_DATA) Sim.world) in
  (exists data, localStorage w1 !! ENCRYPTED_DATA = Some data
                /\ fst (@decrypt Sim.platform data (js "wrong") w1) = Err OperationError)
  /\ fst (@getPasswords Sim.platform (js "wrong") w1) = Err (Error DECRYPT_FAILED)
  /\ (exists data, localStorage w2 !! ENCRYPTED_DATA = Some data
                   /\ fst (@decrypt Sim.platform data k w2) = Ok (js "not json")
                   /\ @JSON_parse Sim.platform (js "not json") = None)
  /\ fst (@getPasswords Sim.platform k w2) = Err (Error DECRYPT_FAILED).
Proof.
  cbv zeta. split; [|split; [|split]].
  - eexists. split; [vm_compute; reflexivity|]. vm_compute. reflexivity.
  - vm_compute. reflexivity.
  - eexists. split; [vm_compute; reflexivity|]. split; vm_compute; reflexivity.
  - vm_compute. reflexivity.
Qed.

Section CollectionClaims.
Context `{WebPlatform}.

Lemma list_find_first (id_ : jsstring) (l : list PasswordEntry) (i : nat) (old : PasswordEntry) :
  l !! i = Some old -> entry_id old = id_ ->
  (forall j e, l !! j = Some e -> (j < i)%nat -> entry_id e <> id_) ->
  list_find (fun p => entry_id p = id_) l = Some (i, old).
Proof. intros Hi Hid Hfirst. apply list_find_Some. auto. Qed.

Lemma list_find_absent (id_ : jsstring) (l : list PasswordEntry) :
  Forall (fun e => entry_id e <> id_) l ->
  list_find (fun p => entry_id p = id_) l = None.
Proof. intros Hall. now apply list_find_None. Qed.


(** C4: with no entry of that id, [deletePassword] returns [false] and
    changes nothing. Otherwise it returns [true], only the data slot is
    written, and the collection read back from it is the old one without
    the first entry of that id, the others in their order; when ids are
    unique no entry of that id is left. *)
Theorem deletePassword_spec (id_ masterPassword : jsstring) (w : World)
    (l : list PasswordEntry) :
  aead_correct -> json_correct ->
  fst (getPasswords masterPassword w) = Ok l ->
  (Forall (fun e => entry_id e <> id_) l ->
   deletePassword id_ masterPassword w = (Ok false, w))
  /\ (forall i old,
        l !! i = Some old -> entry_id old = id_ ->
        (forall j e, l !! j = Some e -> (j < i)%nat -> entry_id e <> id_) ->
        exists w',
          deletePassword id_ masterPassword w = (Ok true, w')
          /\ (exists data,
                localStorage w' = <[ENCRYPTED_DATA := data]> (localStorage w))
          /\ fst (getPasswords masterPassword w') = Ok (take i l ++ drop (S i) l)
          /\ (NoDup (map entry_id l) ->
              Forall (fun e => entry_id e <> id_) (take i l ++ drop (S i) l))).
Proof.
  intros Haead Hjson Hread. apply getPasswords_eq in Hread. split.
  - intros Hall. unfold deletePassword, bind, findIndex. rewrite Hread.
    now rewrite list_find_absent.
  - intros i old Hi Hid Hfirst. unfold deletePassword, bind, findIndex. rewrite Hread.
    rewrite (list_find_first id_ l i old) by assumption. cbn [fmap option_fmap option_map fst].
    rewrite savePasswords_run. unfold ret. rewrite delete_take_drop.
    eexists. split; [reflexivity|]. cbn [localStorage].
    split; [eexists; reflexivity|]. split.
    + eapply getPasswords_sealed; try assumption. cbn [localStorage].
      apply lookup_insert_eq.
    + intros Hnodup. apply Forall_app. split; apply Forall_lookup_2; intros j e Hj.
      * apply lookup_take_Some in Hj as [Hj Hlt]. eauto.
      * rewrite lookup_drop in Hj. intros He.
        assert (Hij : i = (S i + j)%nat); [|lia].
        eapply (NoDup_lookup (map entry_id l)); [exact Hnodup| |].
        -- rewrite list_lookup_fmap, Hi. reflexivity.
        -- rewrite list_lookup_fmap, Hj. cbn. congruence.
Qed.

Lemma includes_nil_r (haystack : jsstring) : includes haystack [] = true.
Proof. destruct haystack; reflexivity. Qed.



End CollectionClaims.

(** ** passwordGenerator.ts: generatePassword *)

Section GeneratorFacts.

Lemma nth_lookup_lt (a : list N) (i : nat) :
  (i < length a)%nat -> a !! i = Some (nth i a 0).
Proof.
  intros Hi. destruct (lookup_lt_is_Some_2 a i Hi) as [x Hx].
  rewrite Hx. f_equal. symmetry. now apply nth_lookup_Some.
Qed.

Lemma swap_length (a : list N) (i j : nat) : length (swap a i j) = length a.
Proof. unfold swap. now rewrite !length_insert. Qed.

Lemma swap_lookup (a : list N) (i j k : nat) :
  (i < length a)%nat -> (j < length a)%nat ->
  swap a i j !! k =
    if decide (k = j) then Some (nth i a 0)
    else if decide (k = i) then Some (nth j a 0)
    else a !! k.
Proof.
  intros Hi Hj. unfold swap. destruct (decide (k = j)) as [->|Hkj].
  - apply list_lookup_insert_eq. now rewrite length_insert.
  - rewrite list_lookup_insert_ne by congruence.
    destruct (decide (k = i)) as [->|Hki].
    + now apply list_lookup_insert_eq.
    + now rewrite list_lookup_insert_ne by congruence.
Qed.

(** A swap keeps the elements. *)
Lemma swap_In (a : list N) (i j : nat) (x : N) :
  (i < length a)%nat -> (j < length a)%nat -> In x (swap a i j) <-> In x a.
Proof.
  intros Hi Hj. rewrite <- !list_elem_of_In, !list_elem_of_lookup. split.
  - intros [k Hk]. rewrite swap_lookup in Hk by assumption.
    destruct (decide (k = j)); [|destruct (decide (k = i))].
    + exists i. rewrite nth_lookup_lt by assumption. exact Hk.
    + exists j. rewrite nth_lookup_lt by assumption. exact Hk.
    + eauto.
  - intros [k Hk]. destruct (decide (k = i)) as [->|Hki].
    + exists j. rewrite swap_lookup by assumption.
      rewrite decide_True by reflexivity.
      now rewrite <- nth_lookup_lt.
    + destruct (decide (k = j)) as [->|Hkj].
      * exists i. rewrite swap_lookup by assumption.
        rewrite decide_False by congruence. rewrite decide_True by reflexivity.
        now rewrite <- nth_lookup_lt.
      * exists k. rewrite swap_lookup by assumption.
        now rewrite !decide_False by assumption.
Qed.

Lemma shuffle_spec (shuffleValues : list N) (i : nat) (chars : list N) :
  (i < length chars)%nat ->
  length (shuffle shuffleValues i chars) = length chars
  /\ forall x, In x (shuffle shuffleValues i chars) <-> In x chars.
Proof.
  revert chars. induction i as [|i IH]; intros chars Hi; [now split|].
  cbn [shuffle].
  set (j := N.to_nat (nth (S i) shuffleValues 0 mod N.of_nat (S i + 1))).
  assert (Hj : (j < length chars)%nat).
  { subst j. pose proof (N.mod_upper_bound (nth (S i) shuffleValues 0) (N.of_nat (S i + 1))).
    lia. }
  destruct (IH (swap chars (S i) j)) as [Hlen Hin].
  { rewrite swap_length. lia. }
  rewrite Hlen, swap_length. split; [reflexivity|].
  intros x. rewrite Hin. now apply swap_In.
Qed.

Lemma getRandomUint32s_run (n : nat) (w : World) :
  N.of_nat n <= 16384 ->
  getRandomUint32s n w = (Ok (map (fun v => v mod 2 ^ 32) (draw n w)), advance n w).
Proof.
  intros Hn. unfold getRandomUint32s.
  destruct (N.ltb_spec 65536 (4 * N.of_nat n)); [lia | reflexivity].
Qed.

Lemma getRandomUint32s_quota (n : nat) (w : World) :
  16384 < N.of_nat n -> getRandomUint32s n w = (Err QuotaExceededError, w).
Proof.
  intros Hn. unfold getRandomUint32s.
  destruct (N.ltb_spec 65536 (4 * N.of_nat n)); [reflexivity | lia].
Qed.

Lemma charset_pick (charset : jsstring) (value : N) :
  charset <> [] ->
  In (nth (N.to_nat (value mod N.of_nat (length charset))) charset 0) charset.
Proof.
  intros Hne. apply nth_In.
  assert (length charset <> 0)%nat by (destruct charset; [contradiction | discriminate]).
  pose proof (N.mod_upper_bound value (N.of_nat (length charset))). lia.
Qed.

(** The second half of [generatePassword]. *)
Lemma build_password_ok (options : PasswordOptions) (charset : jsstring)
    (requiredChars : list N) (w : World) :
  charset <> [] -> requiredChars <> [] -> (length requiredChars <= 4)%nat ->
  Forall (fun c => In c charset) requiredChars ->
  (opt_length options <= 16384)%Z ->
  exists pw,
    fst (build_password options charset requiredChars w) = Ok pw
    /\ Z.of_nat (length pw) = Z.max (opt_length options) (Z.of_nat (length requiredChars))
    /\ (forall c, In c requiredChars -> In c pw)
    /\ (forall c, In c pw -> In c charset).
Proof.
  intros Hcs Hreq Hfour Hin Hlen. unfold build_password.
  destruct (Nat.eqb_spec (length charset) 0) as [E|_].
  { destruct charset; [contradiction | discriminate]. }
  unfold bind. rewrite getRandomUint32s_run by lia.
  set (randomValues := map (fun v => v mod 2 ^ 32) (draw _ w)).
  set (passwordChars := requiredChars ++ map _ randomValues).
  assert (Hpl : Z.of_nat (length passwordChars)
                = Z.max (opt_length options) (Z.of_nat (length requiredChars))).
  { subst passwordChars randomValues.
    rewrite length_app, !length_map, draw_length. lia. }
  rewrite getRandomUint32s_run by lia. unfold ret. cbn [fst].
  assert (Hpos : (length passwordChars - 1 < length passwordChars)%nat).
  { destruct requiredChars; [contradiction|]. subst passwordChars. simpl. lia. }
  match goal with
  | |- context [shuffle ?values _ _] =>
      destruct (shuffle_spec values (length passwordChars - 1) passwordChars Hpos)
        as [Hsl Hsi]
  end.
  eexists. split; [reflexivity|]. split; [now rewrite Hsl|]. split.
  - intros c Hc. apply Hsi. subst passwordChars. apply in_or_app. now left.
  - intros c Hc. apply Hsi in Hc. subst passwordChars.
    apply in_app_or in Hc as [Hc|Hc].
    + rewrite Forall_forall in Hin. apply Hin. now apply list_elem_of_In.
    + apply in_map_iff in Hc as (value & <- & _). now apply charset_pick.
Qed.

Lemma build_password_quota (options : PasswordOptions) (charset : jsstring)
    (requiredChars : list N) (w : World) :
  charset <> [] -> (16384 < opt_length options)%Z ->
  fst (build_password options charset requiredChars w) = Err QuotaExceededError.
Proof.
  intros Hcs Hlen. unfold build_password.
  destruct (Nat.eqb_spec (length charset) 0) as [E|_].
  { destruct charset; [contradiction | discriminate]. }
  unfold bind.
  set (n := Z.to_nat _).
  destruct (N.le_gt_cases (N.of_nat n) 16384) as [Hn|Hn].
  - rewrite getRandomUint32s_run by assumption.
    rewrite getRandomUint32s_quota; [reflexivity|].
    rewrite length_app, !length_map, draw_length. subst n. lia.
  - now rewrite getRandomUint32s_quota.
Qed.

Lemma build_password_empty (options : PasswordOptions) (requiredChars : list N) (w : World) :
  build_password options [] requiredChars w = (Err (Error NO_CHARSET), w).
Proof. reflexivity. Qed.

End GeneratorFacts.

Section GeneratorClaims.

(** The characters of a class pass the test of the class, and of no other. *)
Lemma class_chars_in_class (cls : CharClass) (c : N) :
  In c (class_chars cls) -> in_class cls c = true.
Proof.
  intros Hc.
  assert (Hall : Forall (fun c => in_class cls c = true) (class_chars cls)).
  { destruct cls; repeat constructor. }
  rewrite Forall_forall in Hall. apply Hall. now apply list_elem_of_In.
Qed.

Lemma symbol_not_alphanumeric (c : N) :
  is_symbol c = true ->
  is_lowercase c = false /\ is_uppercase c = false /\ is_number c = false.
Proof.
  intros Hc. unfold is_symbol in Hc. apply existsb_exists in Hc as (s & Hs & Heq).
  apply N.eqb_eq in Heq. subst s.
  assert (Hall : Forall (fun c => is_lowercase c = false /\ is_uppercase c = false
                                  /\ is_number c = false) SYMBOLS).
  { repeat constructor. }
  rewrite Forall_forall in Hall. apply Hall. now apply list_elem_of_In.
Qed.

Lemma in_class_unique (cls cls' : CharClass) (c : N) :
  in_class cls c = true -> in_class cls' c = true -> cls = cls'.
Proof.
  destruct cls, cls'; cbn [in_class]; intros H1 H2; try reflexivity;
    try (apply symbol_not_alphanumeric in H1 as (? & ? & ?); congruence);
    try (apply symbol_not_alphanumeric in H2 as (? & ? & ?); congruence);
    exfalso; unfold is_lowercase, is_uppercase, is_number in *;
    rewrite andb_true_iff, !N.leb_le in H1, H2; lia.
Qed.

Lemma class_chars_not_empty (cls : CharClass) : class_chars cls <> [].
Proof. destruct cls; discriminate. Qed.

Lemma add_class_step (options : PasswordOptions) (seen : list CharClass)
    (cls : CharClass) (acc : jsstring * list N) (w : World) :
  classes_added options seen acc ->
  exists acc' w',
    add_class (enabled options cls) (class_chars cls) acc w = (Ok acc', w')
    /\ classes_added options (seen ++ [cls]) acc'.
Proof.
  intros [Hcs Hreq]. unfold add_class, classes_added.
  rewrite List.filter_app. cbn [List.filter].
  destruct (enabled options cls).
  - unfold bind, randomIndex, ret. eexists _, _. split; [reflexivity|].
    cbn [fst snd]. split.
    + rewrite map_app, concat_app, Hcs. cbn. now rewrite app_nil_r.
    + apply Forall2_app; [assumption|]. constructor; [|constructor].
      apply nth_In. apply Nat.mod_upper_bound.
      pose proof (class_chars_not_empty cls). now destruct (class_chars cls).
  - unfold ret. eexists _, _. split; [reflexivity|]. now rewrite app_nil_r.
Qed.

Lemma required_of_class (classes : list CharClass) (required : list N) :
  Forall2 (fun cls c => In c (class_chars cls)) classes required ->
  (forall cls, In cls classes -> exists c, In c required /\ In c (class_chars cls))
  /\ (forall c, In c required -> exists cls, In cls classes /\ In c (class_chars cls)).
Proof.
  induction 1 as [|cls c classes required Hc _ [IH1 IH2]]; [split; intros ? []|].
  split.
  - intros cls' [<-|Hin]; [exists c; split; [now left | assumption]|].
    destruct (IH1 cls' Hin) as (c' & ? & ?). exists c'. split; [now right | assumption].
  - intros c' [<-|Hin]; [exists cls; split; [now left | assumption]|].
    destruct (IH2 c' Hin) as (cls' & ? & ?). exists cls'. split; [now right | assumption].
Qed.

(** C7 (as amended): with no class enabled [generatePassword] throws the
    policy error. With some class enabled and a requested length [L] of at
    most 16384, it returns a string of length [max(L, enabled classes)]
    with a character of every enabled class and none of a disabled class.
    With a requested length above 16384 it throws, as the random source
    refuses an array of more than 65536 bytes. *)
Theorem generatePassword_spec (options : PasswordOptions) (w : World) :
  (enabled_count options = 0%nat ->
   fst (generatePassword options w) = Err (Error NO_CHARSET))
  /\ (enabled_count options <> 0%nat -> (opt_length options <= 16384)%Z ->
      exists pw,
        fst (generatePassword options w) = Ok pw
        /\ Z.of_nat (length pw)
           = Z.max (opt_length options) (Z.of_nat (enabled_count options))
        /\ forall cls,
             if enabled options cls
             then exists c, In c pw /\ In c (class_chars cls)
             else forall c, In c pw -> ~ In c (class_chars cls))
  /\ (enabled_count options <> 0%nat -> (16384 < opt_length options)%Z ->
      succeeded (fst (generatePassword options w)) = false).
Proof.
  unfold generatePassword, bind.
  change (includeLowercase options) with (enabled options Lower).
  change (includeUppercase options) with (enabled options Upper).
  change (includeNumbers options) with (enabled options Digit).
  change (includeSymbols options) with (enabled options Symbol).
  change LOWERCASE with (class_chars Lower).
  change UPPERCASE with (class_chars Upper).
  change NUMBERS with (class_chars Digit).
  change SYMBOLS with (class_chars Symbol).
  assert (I0 : classes_added options [] ([], [])) by (split; [reflexivity | constructor]).
  destruct (add_class_step options [] Lower _ w I0) as (acc1 & w1 & -> & I1).
  destruct (add_class_step options _ Upper _ w1 I1) as (acc2 & w2 & -> & I2).
  destruct (add_class_step options _ Digit _ w2 I2) as (acc3 & w3 & -> & I3).
  destruct (add_class_step options _ Symbol _ w3 I3) as ([charset required] & w4 & -> & I4).
  cbn [app] in I4. destruct I4 as [Hcs Hreq]. cbn [fst snd] in Hcs, Hreq.
  fold (enabled_count options).
  set (classes := List.filter (enabled options) [Lower; Upper; Digit; Symbol]) in *.
  assert (Hcount : enabled_count options = length required).
  { unfold enabled_count. fold classes. now apply Forall2_length in Hreq. }
  destruct (required_of_class _ _ Hreq) as [Hhas Hfrom].
  assert (Hnonempty : enabled_count options <> 0%nat -> charset <> []).
  { intros Hn ->. destruct classes as [|cls classes'] eqn:Hc.
    - apply Forall2_nil_inv_l in Hreq. subst. now apply Hn.
    - cbn in Hcs. pose proof (class_chars_not_empty cls).
      destruct (class_chars cls); [contradiction | discriminate]. }
  split; [|split].
  - intros Hzero. rewrite Hcount in Hzero. destruct required; [|discriminate].
    apply Forall2_nil_inv_r in Hreq. rewrite Hreq in Hcs. cbn in Hcs. subst charset.
    reflexivity.
  - intros Hn Hlen. rewrite Hcount in *.
    destruct (build_password_ok options charset required w4) as (pw & Hrun & Hl & Hkeep & Hin);
      try assumption.
    + now apply Hnonempty.
    + now destruct required.
    + rewrite <- Hcount. unfold enabled_count.
      etransitivity; [apply List.filter_length_le | reflexivity].
    + apply Forall_forall. intros c Hc. apply list_elem_of_In in Hc.
      destruct (Hfrom c Hc) as (cls & Hcls & Hcc). rewrite Hcs.
      apply in_concat. exists (class_chars cls). split; [|assumption].
      now apply in_map.
    + exists pw. split; [assumption|]. split; [assumption|].
      intros cls. destruct (enabled options cls) eqn:Hen.
      * assert (Hcls : In cls classes).
        { subst classes. apply List.filter_In. split; [|assumption].
          destruct cls; simpl; tauto. }
        destruct (Hhas cls Hcls) as (c & Hc & Hcc). exists c. auto.
      * intros c Hc Habs. apply Hin in Hc. rewrite Hcs in Hc.
        apply in_concat in Hc as (chars & Hchars & Hc).
        apply in_map_iff in Hchars as (cls' & <- & Hcls').
        subst classes. apply List.filter_In in Hcls' as [_ Hen'].
        apply class_chars_in_class in Hc, Habs.
        rewrite (in_class_unique _ _ _ Hc Habs) in Hen'. congruence.
  - intros Hn Hlen. rewrite build_password_quota; [reflexivity | | assumption].
    now apply Hnonempty.
Qed.

End GeneratorClaims.

Lemma generatePassword_spec_witness :
  enabled_count (mkPasswordOptions 2 true false true false) <> 0%nat
  /\ (opt_length (mkPasswordOptions 2 true false true false) <= 16384)%Z
  /\ exists pw,
       fst (generatePassword (mkPasswordOptions 2 true false true false) Sim.world) = Ok pw
       /\ length pw = 2%nat.
Proof.
  split; [discriminate|]. split; [discriminate|].
  destruct (generatePassword_spec (mkPasswordOptions 2 true false true false) Sim.world)
    as (_ & Hok & _).
  destruct Hok as (pw & Hrun & Hlen & _); [discriminate | discriminate |].
  exists pw. split; [exact Hrun|]. cbn in Hlen. lia.
Defined.

(** C7 as stated fails: a requested length of 20000 gives no password. *)
Lemma generatePassword_long_counterexample :
  fst (generatePassword (mkPasswordOptions 20000 true true true true) Sim.world)
  = Err QuotaExceededError.
Proof. vm_compute. reflexivity. Qed.

(** ** passwordGenerator.ts: evaluatePasswordStrength *)

Section EvaluatorClaims.
Context `{WebPlatform}.

(** The loop subtracts and reports once when some pattern occurs, and not
    at all otherwise. *)
Lemma penalize_common_run (lowered : jsstring) (patterns : list jsstring)
    (st : Z * list string) :
  penalize_common lowered patterns st =
    if existsb (includes lowered) patterns
    then ((fst st - 15)%Z, snd st ++ [AVOID_COMMON])
    else st.
Proof.
  induction patterns as [|pattern rest IH]; [reflexivity|].
  cbn [penalize_common existsb]. now destruct (includes lowered pattern).
Qed.

Lemma score_clamped (password_ : jsstring) :
  score (evaluatePasswordStrength password_)
  = Z.max 0 (Z.min 100 (fst (raw_strength password_))).
Proof.
  unfold evaluatePasswordStrength. destruct (raw_strength password_) as [raw fb].
  cbn [fst]. repeat match goal with |- context [if ?b then _ else _] => destruct b end;
    reflexivity.
Qed.

Lemma feedback_cases (password_ : jsstring) :
  let fb := snd (raw_strength password_) in
  feedback (evaluatePasswordStrength password_) = fb
  \/ feedback (evaluatePasswordStrength password_) = TOO_SHORT :: fb
  \/ (fb = [] /\ feedback (evaluatePasswordStrength password_) = [IS_STRONG]).
Proof.
  unfold evaluatePasswordStrength. destruct (raw_strength password_) as [raw fb].
  cbn [snd].
  destruct (_ <? 30)%Z; [destruct (_ <? 8)%nat; cbn [feedback]; auto|].
  destruct (_ <? 50)%Z; [cbn [feedback]; auto|].
  destruct (_ <? 75)%Z; [cbn [feedback]; auto|].
  destruct fb; cbn [length Nat.eqb feedback]; auto.
Qed.

(** C9: whatever the patterns and however many of them occur, the loop
    subtracts 15 once and appends its message once, or does neither; so the
    raw score of a password is its score before the loop less 15 or less
    nothing, and the message occurs at most once in the feedback. *)
Theorem common_penalty_once (password_ : jsstring) :
  (forall lowered patterns st,
      penalize_common lowered patterns st = st
      \/ penalize_common lowered patterns st
         = ((fst st - 15)%Z, snd st ++ [AVOID_COMMON]))
  /\ raw_strength password_ =
       (if has_common password_
        then ((fst (before_common password_) - 15)%Z,
              snd (before_common password_) ++ [AVOID_COMMON])
        else before_common password_)
  /\ (count_occ String.string_dec (feedback (evaluatePasswordStrength password_)) AVOID_COMMON
      <= 1)%nat.
Proof.
  split; [|split].
  - intros lowered patterns st. rewrite penalize_common_run.
    destruct (existsb _ patterns); auto.
  - unfold raw_strength. apply penalize_common_run.
  - assert (Hraw : (count_occ String.string_dec (snd (raw_strength password_)) AVOID_COMMON <= 1)%nat).
    { unfold raw_strength. rewrite penalize_common_run.
      assert (Hb : count_occ String.string_dec (snd (before_common password_)) AVOID_COMMON = 0%nat).
      { unfold before_common, reward.
        destruct (existsb is_lowercase password_), (existsb is_uppercase password_),
          (existsb is_number password_), (existsb is_symbol password_),
          (has_repeat password_); reflexivity. }
      destruct (existsb _ commonPatterns); cbn [snd]; [|lia].
      rewrite count_occ_app, Hb. cbn. lia. }
    destruct (feedback_cases password_) as [-> | [-> | [_ ->]]].
    + exact Hraw.
    + rewrite count_occ_cons_neq by discriminate. exact Hraw.
    + cbn. lia.
Qed.

(** The raw score, term by term. *)
Lemma raw_score (password_ : jsstring) :
  fst (raw_strength password_) =
    (length_points (length password_)
     + (if has_class Lower password_ then 10 else 0)
     + (if has_class Upper password_ then 10 else 0)
     + (if has_class Digit password_ then 10 else 0)
     + (if has_class Symbol password_ then 15 else 0)
     - (if has_repeat password_ then 10 else 0)
     - (if has_common password_ then 15 else 0))%Z.
Proof.
  unfold raw_strength. rewrite penalize_common_run. fold (has_common password_).
  unfold before_common, reward, has_class.
  change (in_class Lower) with is_lowercase. change (in_class Upper) with is_uppercase.
  change (in_class Digit) with is_number. change (in_class Symbol) with is_symbol.
  destruct (existsb is_lowercase password_), (existsb is_uppercase password_),
    (existsb is_number password_), (existsb is_symbol password_),
    (has_repeat password_), (has_common password_); cbn [fst snd]; lia.
Qed.

Lemma length_points_mono (n : nat) : (length_points n <= length_points (S n))%Z.
Proof.
  unfold length_points.
  repeat match goal with
         | |- context [(?a <=? ?b)%nat] => destruct (Nat.leb_spec a b)
         end; lia.
Qed.

Lemma has_class_app (cls : CharClass) (password_ : jsstring) (c : N) :
  has_class cls (password_ ++ [c]) = has_class cls password_ || in_class cls c.
Proof. unfold has_class. rewrite existsb_app. cbn. now rewrite orb_false_r. Qed.

Lemma has_repeat_app (s : jsstring) (c : N) :
  ~ In c s -> has_repeat (s ++ [c]) = has_repeat s.
Proof.
  induction s as [|a rest IH]; intros Hc; [reflexivity|].
  destruct rest as [|b [|c' rest']].
  - reflexivity.
  - cbn. destruct (N.eqb_spec b c) as [->|_].
    + exfalso. apply Hc. right. now left.
    + now rewrite andb_false_r.
  - change ((a :: b :: c' :: rest') ++ [c]) with (a :: (b :: c' :: rest') ++ [c]).
    change (has_repeat (a :: (b :: c' :: rest') ++ [c]))
      with ((negb (is_line_terminator a) && (a =? b) && (b =? c'))
            || has_repeat ((b :: c' :: rest') ++ [c])).
    rewrite IH; [reflexivity|]. intros Hin. apply Hc. now right.
Qed.

Lemma missing_class_not_in (cls : CharClass) (password_ : jsstring) (c : N) :
  has_class cls password_ = false -> in_class cls c = true -> ~ In c password_.
Proof.
  intros Hmiss Hc Hin. unfold has_class in Hmiss.
  assert (existsb (in_class cls) password_ = true); [|congruence].
  apply existsb_exists. eauto.
Qed.

(** C8 (as amended): appending a character of a class the password lacks
    does not lower the score, provided the longer password contains a
    common pattern only if the shorter one did. *)
Theorem append_missing_class_score (password_ : jsstring) (cls : CharClass) (c : N) :
  has_class cls password_ = false ->
  in_class cls c = true ->
  (has_common (password_ ++ [c]) = true -> has_common password_ = true) ->
  (score (evaluatePasswordStrength password_)
   <= score (evaluatePasswordStrength (password_ ++ [c])))%Z.
Proof.
  intros Hmiss Hc Hcommon. rewrite !score_clamped, !raw_score.
  rewrite (has_repeat_app password_ c) by (eapply missing_class_not_in; eassumption).
  rewrite !has_class_app, length_app. cbn [length].
  replace (length password_ + 1)%nat with (S (length password_)) by lia.
  pose proof (length_points_mono (length password_)) as Hlen.
  assert (Hother : forall cls', cls' <> cls -> in_class cls' c = false).
  { intros cls' Hne. destruct (in_class cls' c) eqn:E; [|reflexivity].
    exfalso. apply Hne. eapply in_class_unique; eassumption. }
  assert (Hpen : ((if has_common (password_ ++ [c]) then 15 else 0)
                  <= (if has_common password_ then 15 else 0))%Z).
  { destruct (has_common (password_ ++ [c])); [rewrite Hcommon by reflexivity|];
      destruct (has_common password_); lia. }
  destruct cls; rewrite Hmiss, Hc;
    repeat match goal with
           | |- context [in_class ?k c] => rewrite (Hother k) by discriminate
           end;
    rewrite ?orb_false_r; cbn [orb];
    destruct (has_class Lower password_), (has_class Upper password_),
      (has_class Digit password_), (has_class Symbol password_),
      (has_repeat password_); try discriminate; lia.
Qed.

End EvaluatorClaims.

Lemma append_missing_class_score_witness :
  has_class Digit (js "AB") = false
  /\ in_class Digit 49 = true
  /\ (@has_common Sim.platform (js "AB" ++ [49%N]) = true
      -> @has_common Sim.platform (js "AB") = true)
  /\ (score (@evaluatePasswordStrength Sim.platform (js "AB"))
      <= score (@evaluatePasswordStrength Sim.platform (js "AB" ++ [49%N])))%Z.
Proof.
  split; [reflexivity|]. split; [reflexivity|]. split; [discriminate|].
  apply (@append_missing_class_score Sim.platform (js "AB") Digit 49);
    [reflexivity | reflexivity | discriminate].
Defined.

(** C8 as stated fails: "AB" has no lower-case letter and scores 10;
    "ABc" scores 5. *)
Lemma append_lowercase_counterexample :
  has_class Lower (js "AB") = false
  /\ in_class Lower 99 = true
  /\ score (@evaluatePasswordStrength Sim.platform (js "AB")) = 10%Z
  /\ score (@evaluatePasswordStrength Sim.platform (js "AB" ++ [99%N])) = 5%Z.
Proof. repeat split. Qed.

Lemma vault_read : fst (@getPasswords Sim.platform Sim.master Sim.vault) = Ok [Sim.mail; Sim.bank].
Proof. vm_compute. reflexivity. Qed.


Lemma deletePassword_spec_witness :
  @aead_correct Sim.platform /\ @json_correct Sim.platform
  /\ fst (@getPasswords Sim.platform Sim.master Sim.vault) = Ok [Sim.mail; Sim.bank]
  /\ @deletePassword Sim.platform (js "id-3") Sim.master Sim.vault = (Ok false, Sim.vault)
  /\ exists w',
       @deletePassword Sim.platform (js "id-1") Sim.master Sim.vault = (Ok true, w')
       /\ fst (@getPasswords Sim.platform Sim.master w') = Ok [Sim.bank].
Proof.
  split; [apply SimFacts.aead|]. split; [apply SimFacts.json|].
  split; [apply vault_read|].
  destruct (@deletePassword_spec Sim.platform (js "id-3") Sim.master Sim.vault
              [Sim.mail; Sim.bank] SimFacts.aead SimFacts.json vault_read) as [Habsent _].
  destruct (@deletePassword_spec Sim.platform (js "id-1") Sim.master Sim.vault
              [Sim.mail; Sim.bank] SimFacts.aead SimFacts.json vault_read) as [_ Hfound].
  split.
  - apply Habsent. repeat constructor; discriminate.
  - destruct (Hfound 0%nat Sim.mail eq_refl eq_refl) as (w' & Hrun & _ & Hread & _).
    { intros j e _ Hlt. lia. }
    exists w'. split; assumption.
Defined.


(** * More of storage.ts *)

Section StorageMore.
Context `{WebPlatform}.

Lemma validateMasterPassword_run (masterPassword : jsstring) (w : World) :
  validateMasterPassword masterPassword w =
    (Ok (if truthy (localStorage w !! PASSWORD_VERIFIER) then
           match fst (decrypt (default [] (localStorage w !! PASSWORD_VERIFIER))
                              masterPassword w) with
           | Ok decrypted => bool_decide (decrypted = VERIFICATION_STRING)
           | Err _ => false
           end
         else false), w).
Proof.
  unfold validateMasterPassword, bind, getItem, ret.
  destruct (truthy (localStorage w !! PASSWORD_VERIFIER)); [|reflexivity].
  cbn [negb]. apply verifyPassword_run.
Qed.

(** What the three mutations do once the collection has been read. *)
Lemma updatePassword_run (id_ : jsstring) (updates : EntryUpdates)
    (masterPassword : jsstring) (w : World) (l : list PasswordEntry) :
  fst (getPasswords masterPassword w) = Ok l ->
  updatePassword id_ updates masterPassword w =
    match list_find (fun p => entry_id p = id_) l with
    | None => (Ok None, w)
    | Some (i, old) =>
        let new := merge old updates (clock w (ticks w)) in
        (Ok (<[i := new]> l !! i),
         mkWorld (<[ENCRYPTED_DATA :=
                      sealed (JSON_stringify (<[i := new]> l)) masterPassword
                             (next_salt w) (next_iv w)]> (localStorage w))
                 (entropy w) (drawn w + SALT_LENGTH + IV_LENGTH) (clock w) (S (ticks w)))
    end.
Proof.
  intros Hread. apply getPasswords_eq in Hread.
  unfold updatePassword, bind. rewrite Hread.
  destruct (list_find _ l) as [[i old]|]; [|reflexivity].
  unfold nowISOString. now rewrite savePasswords_run.
Qed.

Lemma deletePassword_run (id_ masterPassword : jsstring) (w : World)
    (l : list PasswordEntry) :
  fst (getPasswords masterPassword w) = Ok l ->
  deletePassword id_ masterPassword w =
    match list_find (fun p => entry_id p = id_) l with
    | None => (Ok false, w)
    | Some (i, _) =>
        (Ok true,
         mkWorld (<[ENCRYPTED_DATA :=
                      sealed (JSON_stringify (delete i l)) masterPassword
                             (next_salt w) (next_iv w)]> (localStorage w))
                 (entropy w) (drawn w + SALT_LENGTH + IV_LENGTH) (clock w) (ticks w))
    end.
Proof.
  intros Hread. apply getPasswords_eq in Hread.
  unfold deletePassword, bind, findIndex. rewrite Hread.
  destruct (list_find _ l) as [[i old]|]; [|reflexivity].
  cbn [fmap option_fmap option_map fst]. now rewrite savePasswords_run.
Qed.

Lemma addPassword_run (entry : NewEntry) (masterPassword : jsstring) (w : World)
    (l : list PasswordEntry) :
  fst (getPasswords masterPassword w) = Ok l ->
  addPassword entry masterPassword w =
    (Ok (added_entry entry w),
     mkWorld (<[ENCRYPTED_DATA :=
                  sealed (JSON_stringify (l ++ [added_entry entry w])) masterPassword
                         (next_salt (advance 16 w)) (next_iv (advance 16 w))]>
                (localStorage w))
             (entropy w) (drawn w + 16 + SALT_LENGTH + IV_LENGTH) (clock w)
             (S (S (ticks w)))).
Proof.
  intros Hread. apply getPasswords_eq in Hread.
  unfold addPassword, bind. rewrite Hread.
  unfold randomUUID, nowISOString. now rewrite savePasswords_run.
Qed.

Lemma mutation_unreadable (masterPassword : jsstring) (w : World) (e : JsError) :
  fst (getPasswords masterPassword w) = Err e ->
  forall B (k : list PasswordEntry -> async B),
    bind (getPasswords masterPassword) k w = (Err e, w).
Proof.
  intros Hread B k. apply getPasswords_eq in Hread. unfold bind. now rewrite Hread.
Qed.

(** X1: [resetApp] needs no password and does not fail. It removes the
    three slots and nothing else; afterwards the vault is not initialized,
    no password validates and the collection is empty. *)
Theorem resetApp_clears (hasWindow : bool) (w : World) :
  exists w',
    resetApp w = (Ok tt, w')
    /\ localStorage w' !! PASSWORD_VERIFIER = None
    /\ localStorage w' !! ENCRYPTED_DATA = None
    /\ localStorage w' !! IS_INITIALIZED = None
    /\ (forall key, key <> PASSWORD_VERIFIER -> key <> ENCRYPTED_DATA ->
                    key <> IS_INITIALIZED ->
                    localStorage w' !! key = localStorage w !! key)
    /\ isAppInitialized hasWindow w' = false
    /\ (forall k, validateMasterPassword k w' = (Ok false, w'))
    /\ (forall k, getPasswords k w' = (Ok [], w')).
Proof.
  unfold resetApp, bind, removeItem. cbn [localStorage].
  eexists. split; [reflexivity|]. cbn [localStorage].
  assert (Hv : forall m : gmap string jsstring,
             delete IS_INITIALIZED (delete ENCRYPTED_DATA (delete PASSWORD_VERIFIER m))
               !! PASSWORD_VERIFIER = None).
  { intros m. rewrite !lookup_delete_ne by discriminate. apply lookup_delete_eq. }
  assert (Hd : forall m : gmap string jsstring,
             delete IS_INITIALIZED (delete ENCRYPTED_DATA (delete PASSWORD_VERIFIER m))
               !! ENCRYPTED_DATA = None).
  { intros m. rewrite lookup_delete_ne by discriminate. apply lookup_delete_eq. }
  assert (Hi : forall m : gmap string jsstring,
             delete IS_INITIALIZED (delete ENCRYPTED_DATA (delete PASSWORD_VERIFIER m))
               !! IS_INITIALIZED = None).
  { intros m. apply lookup_delete_eq. }
  split; [apply Hv|]. split; [apply Hd|]. split; [apply Hi|]. split; [|split; [|split]].
  - intros key H1 H2 H3. now rewrite !lookup_delete_ne by congruence.
  - unfold isAppInitialized. cbn [localStorage]. rewrite Hi.
    now destruct hasWindow.
  - intros k. rewrite validateMasterPassword_run. cbn [localStorage]. now rewrite Hv.
  - intros k. apply getPasswords_eq. rewrite getPasswords_run. cbn [localStorage].
    now rewrite Hd.
Qed.

(** X2: [validateMasterPassword] never throws and changes nothing. It
    answers true exactly when the verifier slot holds a non-empty text that
    decrypts, under the password, to the sentinel string; with no verifier
    it answers false. *)
Theorem validateMasterPassword_spec (masterPassword : jsstring) (w : World) :
  exists b,
    validateMasterPassword masterPassword w = (Ok b, w)
    /\ (b = true <->
        exists verifier,
          localStorage w !! PASSWORD_VERIFIER = Some verifier /\ verifier <> []
          /\ fst (decrypt verifier masterPassword w) = Ok VERIFICATION_STRING).
Proof.
  eexists. split; [apply validateMasterPassword_run|].
  destruct (localStorage w !! PASSWORD_VERIFIER) as [[|c verifier]|] eqn:Hslot;
    cbn [truthy].
  - split; [discriminate|]. intros (v & [= <-] & Hne & _). contradiction.
  - unfold default; cbn [from_option id].
    destruct (fst (decrypt (c :: verifier) masterPassword w)) as [text|e] eqn:Hd.
    + rewrite bool_decide_eq_true. split.
      * intros ->. exists (c :: verifier). repeat split; [discriminate | assumption].
      * intros (v & [= <-] & _ & Hv). congruence.
    + split; [discriminate|]. intros (v & [= <-] & _ & Hv). congruence.
  - split; [discriminate|]. intros (v & Hv & _). discriminate.
Qed.

(** X3: when the collection cannot be read, [addPassword],
    [updatePassword] and [deletePassword] throw the error of [getPasswords]
    and change nothing. *)
Theorem mutations_need_a_readable_vault (masterPassword : jsstring) (w : World)
    (e : JsError) (entry : NewEntry) (id_ : jsstring) (updates : EntryUpdates) :
  fst (getPasswords masterPassword w) = Err e ->
  addPassword entry masterPassword w = (Err e, w)
  /\ updatePassword id_ updates masterPassword w = (Err e, w)
  /\ deletePassword id_ masterPassword w = (Err e, w).
Proof.
  intros Hread. repeat split; now apply mutation_unreadable.
Qed.

Lemma lookup_after_mutation (key : string) (data : jsstring) (w : World) :
  key <> ENCRYPTED_DATA ->
  <[ENCRYPTED_DATA := data]> (localStorage w) !! key = localStorage w !! key.
Proof. intros Hkey. now rewrite lookup_insert_ne by congruence. Qed.

(** X4: the three mutations write the data slot only. Whatever they
    return, every other key of the storage keeps its value, so the vault
    stays initialized and every password validates as it did before. *)
Theorem mutations_write_data_only (masterPassword : jsstring) (w : World)
    (entry : NewEntry) (id_ : jsstring) (updates : EntryUpdates) (w' : World) :
  w' = snd (addPassword entry masterPassword w)
  \/ w' = snd (updatePassword id_ updates masterPassword w)
  \/ w' = snd (deletePassword id_ masterPassword w) ->
  (forall key, key <> ENCRYPTED_DATA -> localStorage w' !! key = localStorage w !! key)
  /\ (forall hasWindow, isAppInitialized hasWindow w' = isAppInitialized hasWindow w)
  /\ (forall k, fst (validateMasterPassword k w') = fst (validateMasterPassword k w)).
Proof.
  intros Hw'.
  assert (Hframe : forall key, key <> ENCRYPTED_DATA ->
                               localStorage w' !! key = localStorage w !! key).
  { intros key Hkey.
    destruct (fst (getPasswords masterPassword w)) as [l|e] eqn:Hread.
    - destruct Hw' as [-> | [-> | ->]].
      + rewrite (addPassword_run _ _ _ l Hread). now apply lookup_after_mutation.
      + rewrite (updatePassword_run _ _ _ _ l Hread).
        destruct (list_find _ l) as [[i old]|]; [|reflexivity].
        now apply lookup_after_mutation.
      + rewrite (deletePassword_run _ _ _ l Hread).
        destruct (list_find _ l) as [[i old]|]; [|reflexivity].
        now apply lookup_after_mutation.
    - destruct Hw' as [-> | [-> | ->]];
        unfold addPassword, updatePassword, deletePassword;
        now rewrite (mutation_unreadable masterPassword w e Hread). }
  split; [exact Hframe|]. split.
  - intros hasWindow. unfold isAppInitialized. now rewrite Hframe by discriminate.
  - intros k. rewrite !validateMasterPassword_run. cbn [fst].
    rewrite Hframe by discriminate.
    destruct (truthy (localStorage w !! PASSWORD_VERIFIER)); [|reflexivity].
    now rewrite (decrypt_any_world _ k w' w).
Qed.

End StorageMore.

Section CollectionMore.
Context `{WebPlatform}.

Lemma read_after_save (l : list PasswordEntry) (masterPassword : jsstring)
    (w0 : World) (store : gmap string jsstring) (e : nat -> N) (d : nat)
    (c : nat -> jsstring) (t : nat) :
  aead_correct -> json_correct ->
  fst (getPasswords masterPassword
         (mkWorld (<[ENCRYPTED_DATA :=
                       sealed (JSON_stringify l) masterPassword (next_salt w0) (next_iv w0)]>
                     store) e d c t)) = Ok l.
Proof.
  intros Haead Hjson. eapply getPasswords_sealed; try assumption.
  cbn [localStorage]. apply lookup_insert_eq.
Qed.



(** X7: [updatePassword] never changes an id or a creation time, nor the
    number or the order of the entries: whatever the id and the updates,
    the collection read back has the ids and the creation times of the old
    one, position by position. *)
Theorem updatePassword_keeps_ids (id_ : jsstring) (updates : EntryUpdates)
    (masterPassword : jsstring) (w : World) (l : list PasswordEntry) :
  aead_correct -> json_correct ->
  fst (getPasswords masterPassword w) = Ok l ->
  exists l',
    fst (getPasswords masterPassword (snd (updatePassword id_ updates masterPassword w)))
    = Ok l'
    /\ map entry_id l' = map entry_id l
    /\ map createdAt l' = map createdAt l.
Proof.
  intros Haead Hjson Hread. rewrite (updatePassword_run _ _ _ _ l Hread).
  destruct (list_find _ l) as [[i old]|] eqn:Hfind.
  - apply list_find_Some in Hfind as (Hi & _ & _). cbn [snd].
    eexists. split; [now apply read_after_save|].
    split.
    + change (map entry_id ?x) with (entry_id <$> x).
      rewrite list_fmap_insert. cbn [entry_id merge].
      apply list_insert_id. now rewrite list_lookup_fmap, Hi.
    + change (map createdAt ?x) with (createdAt <$> x).
      rewrite list_fmap_insert. cbn [createdAt merge].
      apply list_insert_id. now rewrite list_lookup_fmap, Hi.
  - exists l. cbn [snd]. auto.
Qed.

(** X8: with unique ids, after [deletePassword] no entry has the id, the
    ids left are unique, and deleting the same id again returns false and
    changes nothing. *)
Theorem deletePassword_twice (id_ masterPassword : jsstring) (w : World)
    (l : list PasswordEntry) :
  aead_correct -> json_correct ->
  fst (getPasswords masterPassword w) = Ok l ->
  NoDup (map entry_id l) ->
  let w1 := snd (deletePassword id_ masterPassword w) in
  exists l',
    fst (getPasswords masterPassword w1) = Ok l'
    /\ NoDup (map entry_id l')
    /\ Forall (fun e => entry_id e <> id_) l'
    /\ deletePassword id_ masterPassword w1 = (Ok false, w1).
Proof.
  intros Haead Hjson Hread Hnodup w1.
  assert (Hl' : exists l', fst (getPasswords masterPassword w1) = Ok l'
                           /\ NoDup (map entry_id l')
                           /\ Forall (fun e => entry_id e <> id_) l').
  { subst w1. rewrite (deletePassword_run _ _ _ l Hread).
    destruct (list_find _ l) as [[i old]|] eqn:Hfind.
    - apply list_find_Some in Hfind as (Hi & Hid & Hfirst). cbn [snd].
      exists (delete i l). split; [now apply read_after_save|]. split.
      + eapply sublist_NoDup; [exact Hnodup|].
        change (map entry_id ?x) with (entry_id <$> x).
        apply fmap_sublist, sublist_delete.
      + rewrite delete_take_drop. apply Forall_app. split; apply Forall_lookup_2; intros j e Hj.
        * apply lookup_take_Some in Hj as [Hj Hlt]. exact (Hfirst j e Hj Hlt).
        * rewrite lookup_drop in Hj. intros He.
          assert (Hij : i = (S i + j)%nat); [|lia].
          eapply (NoDup_lookup (map entry_id l)); [exact Hnodup| |].
          -- rewrite list_lookup_fmap, Hi. reflexivity.
          -- rewrite list_lookup_fmap, Hj. cbn. congruence.
    - apply list_find_None in Hfind. exists l. cbn [snd]. auto. }
  destruct Hl' as (l' & Hread' & Hnd & Hall). exists l'.
  repeat (split; [assumption|]).
  rewrite (deletePassword_run _ _ _ l' Hread'). now rewrite list_find_absent.
Qed.

(** X9: a search for the empty string returns the whole collection. *)
Theorem searchPasswords_empty_query (masterPassword : jsstring) (w : World)
    (l : list PasswordEntry) :
  toLowerCase [] = [] ->
  fst (getPasswords masterPassword w) = Ok l ->
  searchPasswords [] masterPassword w = (Ok l, w).
Proof.
  intros Hnil Hread. apply getPasswords_eq in Hread.
  unfold searchPasswords, bind, ret. rewrite Hread, Hnil. f_equal. f_equal.
  clear Hread. induction l as [|p l IH]; [reflexivity|].
  assert (Hp : matches_query [] p = true).
  { unfold matches_query. now rewrite includes_nil_r. }
  simpl. rewrite Hp. f_equal. exact IH.
Qed.

End CollectionMore.

(** * More of crypto.ts *)

Module TextCodingMore.
Import TextCoding TextCodingFacts.




End TextCodingMore.

Module Base64More.
Import Base64.

Lemma values_illegal (s : jsstring) (c : N) :
  In c s -> value_of c = None -> values s = None.
Proof.
  induction s as [|x s IH]; intros Hin Hc; [contradiction|]. simpl.
  destruct Hin as [->|Hin].
  - now rewrite Hc.
  - rewrite (IH Hin Hc). now destruct (value_of x).
Qed.

Lemma strip_padding_keeps (s : jsstring) (c : N) :
  In c s -> c <> PAD -> In c (strip_padding s).
Proof.
  intros Hin Hc. unfold strip_padding.
  destruct (length s mod 4 =? 0)%nat; [|assumption].
  pose proof (proj1 (in_rev s c) Hin) as Hrev.
  destruct (rev s) as [|c1 [|c2 r]]; [assumption | |].
  - destruct (N.eqb_spec c1 PAD) as [->|_]; [|assumption].
    destruct Hrev as [<-|[]]. contradiction.
  - destruct (N.eqb_spec c1 PAD) as [->|_]; [|assumption].
    destruct Hrev as [<-|Hrev]; [contradiction|].
    destruct (N.eqb_spec c2 PAD) as [->|_].
    + destruct Hrev as [<-|Hrev]; [contradiction|]. now apply in_rev in Hrev.
    + now apply in_rev in Hrev.
Qed.

(** [atob] refuses a text with a character that is neither of the
    alphabet, nor white space, nor ['=']. *)
Lemma atob_illegal (s : jsstring) (c : N) :
  In c s -> is_ascii_whitespace c = false -> value_of c = None -> c <> PAD ->
  atob s = Err InvalidCharacterError.
Proof.
  intros Hin Hws Hval Hpad. unfold atob.
  destruct (_ =? 1)%nat; [reflexivity|].
  rewrite (values_illegal _ c); [reflexivity | | assumption].
  apply strip_padding_keeps; [|assumption].
  apply list_elem_of_In, list_elem_of_filter. split; [assumption|].
  now apply list_elem_of_In.
Qed.



End Base64More.

Section CryptoMore.
Context `{WebPlatform}.


(** X11: [decrypt] throws InvalidCharacterError, and changes nothing, on a
    text that holds a character which is neither of the base64 alphabet,
    nor white space, nor ['=']. *)
Theorem decrypt_illegal_character (encryptedData k : jsstring) (c : N) (w : World) :
  In c encryptedData ->
  Base64.is_ascii_whitespace c = false ->
  Base64.value_of c = None ->
  c <> Base64.PAD ->
  decrypt encryptedData k w = (Err InvalidCharacterError, w).
Proof.
  intros Hin Hws Hval Hpad. unfold decrypt, bind, lift.
  now rewrite (Base64More.atob_illegal encryptedData c).
Qed.


End CryptoMore.

(** * More of passwordGenerator.ts *)

Section ShuffleMore.

Lemma swap_Permutation (a : list N) (i j : nat) :
  (i < length a)%nat -> (j < length a)%nat -> swap a i j ≡ₚ a.
Proof.
  intros Hi Hj. apply Permutation_inj. split; [apply swap_length|].
  exists (fun k => if decide (k = j) then i else if decide (k = i) then j else k).
  split.
  - intros k1 k2.
    destruct (decide (k1 = j)), (decide (k2 = j)), (decide (k1 = i)), (decide (k2 = i));
      congruence.
  - intros k. rewrite swap_lookup by assumption.
    destruct (decide (k = j)); [now rewrite nth_lookup_lt|].
    destruct (decide (k = i)); [now rewrite nth_lookup_lt | reflexivity].
Qed.

(** X13: the shuffle only reorders: whatever the random values, the
    characters after the loop are a permutation of the characters before
    it. *)
Theorem shuffle_Permutation (shuffleValues : list N) (i : nat) (passwordChars : list N) :
  (i < length passwordChars)%nat ->
  shuffle shuffleValues i passwordChars ≡ₚ passwordChars.
Proof.
  revert passwordChars. induction i as [|i IH]; intros chars Hi; [reflexivity|].
  cbn [shuffle].
  set (j := N.to_nat (nth (S i) shuffleValues 0 mod N.of_nat (S i + 1))).
  assert (Hj : (j < length chars)%nat).
  { subst j. pose proof (N.mod_upper_bound (nth (S i) shuffleValues 0) (N.of_nat (S i + 1))).
    lia. }
  rewrite IH by (rewrite swap_length; lia). now apply swap_Permutation.
Qed.

End ShuffleMore.

Section EvaluatorMore.
Context `{WebPlatform}.

Lemma length_points_range (n : nat) :
  (0 <= length_points n <= 50)%Z
  /\ ((n < 8)%nat -> length_points n = 0%Z)
  /\ ((n < 16)%nat -> (length_points n <= 25)%Z)
  /\ ((16 <= n)%nat -> (40 <= length_points n)%Z).
Proof.
  unfold length_points.
  repeat match goal with
         | |- context [(?a <=? ?b)%nat] => destruct (Nat.leb_spec a b)
         end; lia.
Qed.

Lemma level_of_score (password_ : jsstring) :
  let s := evaluatePasswordStrength password_ in
  level s = if (score s <? 30)%Z then weak
            else if (score s <? 50)%Z then fair
            else if (score s <? 75)%Z then good else strong.
Proof.
  unfold evaluatePasswordStrength. destruct (raw_strength password_) as [raw fb].
  destruct (Z.max 0 (Z.min 100 raw) <? 30)%Z eqn:E1; cbn [score level]; rewrite ?E1;
    [reflexivity|].
  destruct (Z.max 0 (Z.min 100 raw) <? 50)%Z eqn:E2; cbn [score level]; rewrite ?E1, ?E2;
    [reflexivity|].
  destruct (Z.max 0 (Z.min 100 raw) <? 75)%Z eqn:E3; cbn [score level];
    rewrite ?E1, ?E2, ?E3; reflexivity.
Qed.

(** X14: the score is never below 0 nor above 95, and the level is read
    off the score: weak below 30, fair below 50, good below 75, strong
    from 75. *)
Theorem score_and_level (password_ : jsstring) :
  let s := evaluatePasswordStrength password_ in
  (0 <= score s <= 95)%Z
  /\ (level s = weak <-> (score s < 30)%Z)
  /\ (level s = fair <-> (30 <= score s < 50)%Z)
  /\ (level s = good <-> (50 <= score s < 75)%Z)
  /\ (level s = strong <-> (75 <= score s)%Z).
Proof.
  intros s. pose proof (level_of_score password_) as Hl. fold s in Hl.
  assert (Hs : (0 <= score s <= 95)%Z).
  { subst s. rewrite score_clamped, raw_score.
    destruct (length_points_range (length password_)) as (Hr & _).
    destruct (has_class Lower password_), (has_class Upper password_),
      (has_class Digit password_), (has_class Symbol password_),
      (has_repeat password_), (has_common password_); lia. }
  split; [exact Hs|]. rewrite Hl.
  destruct (Z.ltb_spec (score s) 30); [repeat split; intros; try discriminate; lia|].
  destruct (Z.ltb_spec (score s) 50); [repeat split; intros; try discriminate; lia|].
  destruct (Z.ltb_spec (score s) 75); repeat split; intros; try discriminate; lia.
Qed.

(** X15: the length decides what a password can reach: one of fewer than
    8 characters scores at most 45 and is weak or fair; one of fewer than
    16 characters scores at most 70 and is never strong. *)
Theorem short_passwords_capped (password_ : jsstring) :
  let s := evaluatePasswordStrength password_ in
  ((length password_ < 8)%nat ->
   (score s <= 45)%Z /\ (level s = weak \/ level s = fair))
  /\ ((length password_ < 16)%nat -> (score s <= 70)%Z /\ level s <> strong).
Proof.
  intros s. pose proof (level_of_score password_) as Hl. fold s in Hl.
  destruct (length_points_range (length password_)) as (Hr & H8 & H16 & _).
  assert (Hraw : score s = Z.max 0 (Z.min 100 (fst (raw_strength password_))))
    by apply score_clamped.
  rewrite raw_score in Hraw. split.
  - intros Hlen. specialize (H8 Hlen).
    assert (Hs : (score s <= 45)%Z).
    { rewrite Hraw, H8.
      destruct (has_class Lower password_), (has_class Upper password_),
        (has_class Digit password_), (has_class Symbol password_),
        (has_repeat password_), (has_common password_); lia. }
    split; [exact Hs|]. rewrite Hl.
    destruct (Z.ltb_spec (score s) 30); [now left|].
    destruct (Z.ltb_spec (score s) 50); [now right | lia].
  - intros Hlen. specialize (H16 Hlen).
    assert (Hs : (score s <= 70)%Z).
    { rewrite Hraw.
      destruct (has_class Lower password_), (has_class Upper password_),
        (has_class Digit password_), (has_class Symbol password_),
        (has_repeat password_), (has_common password_); lia. }
    split; [exact Hs|]. rewrite Hl.
    destruct (Z.ltb_spec (score s) 30); [discriminate|].
    destruct (Z.ltb_spec (score s) 50); [discriminate|].
    destruct (Z.ltb_spec (score s) 75); [discriminate | lia].
Qed.

(** The feedback before the level is known: one message for each class
    that is missing, in the order of the tests, then the two warnings. *)
Lemma raw_feedback (password_ : jsstring) :
  snd (raw_strength password_) =
    (if has_class Lower password_ then [] else [ADD_LOWERCASE])
    ++ (if has_class Upper password_ then [] else [ADD_UPPERCASE])
    ++ (if has_class Digit password_ then [] else [ADD_NUMBER])
    ++ (if has_class Symbol password_ then [] else [ADD_SYMBOL])
    ++ (if has_repeat password_ then [AVOID_REPEAT] else [])
    ++ (if has_common password_ then [AVOID_COMMON] else []).
Proof.
  unfold raw_strength. rewrite penalize_common_run. fold (has_common password_).
  unfold before_common, reward, has_class.
  change (in_class Lower) with is_lowercase. change (in_class Upper) with is_uppercase.
  change (in_class Digit) with is_number. change (in_class Symbol) with is_symbol.
  destruct (existsb is_lowercase password_), (existsb is_uppercase password_),
    (existsb is_number password_), (existsb is_symbol password_),
    (has_repeat password_), (has_common password_); reflexivity.
Qed.

(** X16: the feedback, in full: a warning that the password is too short
    comes first when the score is below 30 and the password has fewer than
    8 characters; then one request for each missing class, in the order
    lower case, upper case, digit, symbol; then the warning about repeated
    characters and the warning about common patterns, when they apply; and
    the praise alone when the score is 75 or more and nothing else was
    said. *)
Theorem feedback_in_full (password_ : jsstring) :
  let s := evaluatePasswordStrength password_ in
  let said :=
    (if has_class Lower password_ then [] else [ADD_LOWERCASE])
    ++ (if has_class Upper password_ then [] else [ADD_UPPERCASE])
    ++ (if has_class Digit password_ then [] else [ADD_NUMBER])
    ++ (if has_class Symbol password_ then [] else [ADD_SYMBOL])
    ++ (if has_repeat password_ then [AVOID_REPEAT] else [])
    ++ (if has_common password_ then [AVOID_COMMON] else []) in
  feedback s =
    if (score s <? 30)%Z then
      (if (length password_ <? 8)%nat then TOO_SHORT :: said else said)
    else if (score s <? 75)%Z then said
    else match said with [] => [IS_STRONG] | _ => said end.
Proof.
  intros s said. subst s said. rewrite <- raw_feedback.
  unfold evaluatePasswordStrength. destruct (raw_strength password_) as [raw fb].
  cbn [snd].
  destruct (Z.max 0 (Z.min 100 raw) <? 30)%Z eqn:E1; cbn [score feedback]; rewrite ?E1;
    [reflexivity|].
  destruct (Z.max 0 (Z.min 100 raw) <? 50)%Z eqn:E2; cbn [score feedback]; rewrite ?E1.
  { destruct (Z.ltb_spec (Z.max 0 (Z.min 100 raw)) 75); [reflexivity|].
    apply Z.ltb_lt in E2. lia. }
  destruct (Z.max 0 (Z.min 100 raw) <? 75)%Z eqn:E3; cbn [score feedback];
    rewrite ?E1, ?E3; [reflexivity|].
  now destruct fb.
Qed.

Lemma four_classes_sixteen_helper (password_ : jsstring) :
  (forall cls, has_class cls password_ = true) ->
  (16 <= length password_)%nat ->
  (60 <= score (evaluatePasswordStrength password_))%Z
  /\ (level (evaluatePasswordStrength password_) = good
      \/ level (evaluatePasswordStrength password_) = strong).
Proof.
  intros Hall Hlen. pose proof (level_of_score password_) as Hl. cbv zeta in Hl.
  destruct (length_points_range (length password_)) as (Hr & _ & _ & H16).
  specialize (H16 Hlen).
  assert (Hs : (60 <= score (evaluatePasswordStrength password_))%Z).
  { rewrite score_clamped, raw_score, !Hall.
    destruct (has_repeat password_), (has_common password_); lia. }
  split; [exact Hs|]. rewrite Hl.
  destruct (Z.ltb_spec (score (evaluatePasswordStrength password_)) 30); [lia|].
  destruct (Z.ltb_spec (score (evaluatePasswordStrength password_)) 50); [lia|].
  destruct (Z.ltb_spec (score (evaluatePasswordStrength password_)) 75); auto.
Qed.

(** X17: a password with a character of each of the four classes and at
    least 16 characters scores 60 or more, so it is good or strong,
    whatever it repeats or contains. *)
Theorem four_classes_sixteen (password_ : jsstring) :
  (forall cls, has_class cls password_ = true) ->
  (16 <= length password_)%nat ->
  (60 <= score (evaluatePasswordStrength password_))%Z
  /\ (level (evaluatePasswordStrength password_) = good
      \/ level (evaluatePasswordStrength password_) = strong).
Proof. apply four_classes_sixteen_helper. Qed.

End EvaluatorMore.

Section GeneratedStrength.
Context `{WebPlatform}.

Lemma pick_in_class (cls : CharClass) (r : nat) :
  In (nth (r mod length (class_chars cls)) (class_chars cls) 0) (class_chars cls).
Proof.
  apply nth_In, Nat.mod_upper_bound.
  pose proof (class_chars_not_empty cls). now destruct (class_chars cls).
Qed.

(** With the four classes enabled: the password holds a character of
    each, and has the length asked for, or four. *)
Lemma generatePassword_four_classes (L : Z) (w : World) :
  (L <= 16384)%Z ->
  exists pw,
    fst (generatePassword (mkPasswordOptions L true true true true) w) = Ok pw
    /\ Z.of_nat (length pw) = Z.max L 4
    /\ forall cls, has_class cls pw = true.
Proof.
  intros HL. unfold generatePassword, add_class, bind, randomIndex, ret.
  cbn [includeLowercase includeUppercase includeNumbers includeSymbols fst snd app].
  set (c1 := nth _ LOWERCASE 0). set (c2 := nth _ UPPERCASE 0).
  set (c3 := nth _ NUMBERS 0). set (c4 := nth _ SYMBOLS 0).
  assert (H1 : In c1 (class_chars Lower)) by apply (pick_in_class Lower).
  assert (H2 : In c2 (class_chars Upper)) by apply (pick_in_class Upper).
  assert (H3 : In c3 (class_chars Digit)) by apply (pick_in_class Digit).
  assert (H4 : In c4 (class_chars Symbol)) by apply (pick_in_class Symbol).
  match goal with
  | |- context [build_password ?o ?cs ?req ?w'] =>
      destruct (build_password_ok o cs req w') as (pw & Hrun & Hlen & Hkeep & _)
  end.
  - discriminate.
  - discriminate.
  - simpl. lia.
  - cbn [class_chars] in *.
    repeat (apply Forall_cons; split); try apply Forall_nil_2;
      rewrite !in_app_iff; tauto.
  - exact HL.
  - exists pw. split; [exact Hrun|]. split; [exact Hlen|].
    intros cls. unfold has_class. apply existsb_exists.
    destruct cls; [exists c1 | exists c2 | exists c3 | exists c4];
      (split; [apply Hkeep; simpl; tauto | now apply class_chars_in_class]).
Qed.

(** X18: a password generated with the four classes enabled and a length
    from 16 to 16384 is always rated good or strong by the evaluator, with
    a score of 60 or more. *)
Theorem generated_password_is_good (L : Z) (w : World) :
  (16 <= L <= 16384)%Z ->
  exists pw,
    fst (generatePassword (mkPasswordOptions L true true true true) w) = Ok pw
    /\ (60 <= score (evaluatePasswordStrength pw))%Z
    /\ (level (evaluatePasswordStrength pw) = good
        \/ level (evaluatePasswordStrength pw) = strong).
Proof.
  intros [HL16 HL]. destruct (generatePassword_four_classes L w HL) as (pw & Hrun & Hlen & Hall).
  exists pw. split; [exact Hrun|].
  apply four_classes_sixteen_helper; [exact Hall | lia].
Qed.

End GeneratedStrength.

(** * AuthContext.tsx, LoginScreen.tsx and PasswordList.tsx *)

Section SessionMore.
Context `{WebPlatform}.
Import AuthContext.

Lemma login_run (password_ : jsstring) (s : Session) (w : World) :
  login password_ s w =
    match fst (validateMasterPassword password_ w) with
    | Ok true => (Ok true, mkSession true (isInitialized s) (isLoading s) (Some password_), w)
    | _ => (Ok false, s, w)
    end.
Proof.
  unfold login. rewrite validateMasterPassword_run. cbn [fst].
  now destruct (if truthy _ then _ else false).
Qed.

Lemma initializeApp_run (password_ : jsstring) (w : World) :
  initializeApp password_ w =
    (Ok tt,
     mkWorld (<[IS_INITIALIZED := js "true"]>
                (<[ENCRYPTED_DATA :=
                     sealed (JSON_stringify []) password_
                            (next_salt (advance IV_LENGTH (advance SALT_LENGTH w)))
                            (next_iv (advance IV_LENGTH (advance SALT_LENGTH w)))]>
                   (<[PASSWORD_VERIFIER :=
                        sealed VERIFICATION_STRING password_ (next_salt w) (next_iv w)]>
                      (localStorage w))))
             (entropy w) (drawn w + SALT_LENGTH + IV_LENGTH + SALT_LENGTH + IV_LENGTH)
             (clock w) (ticks w)).
Proof.
  unfold initializeApp, createPasswordVerifier, bind. rewrite !encrypt_run.
  reflexivity.
Qed.

Lemma validate_after_initialize (password_ : jsstring) (w : World) :
  aead_correct ->
  validateMasterPassword password_ (snd (initializeApp password_ w))
  = (Ok true, snd (initializeApp password_ w)).
Proof.
  intros Haead. rewrite initializeApp_run. cbn [snd].
  rewrite validateMasterPassword_run. cbn [localStorage].
  rewrite !lookup_insert_ne by discriminate. rewrite lookup_insert_eq.
  rewrite sealed_not_empty by apply next_salt_length.
  unfold default; cbn [from_option id].
  rewrite decrypt_encrypt by assumption. cbn [fst].
  now rewrite verification_string_roundtrip.
Qed.

(** X19: [login] never throws and changes neither storage, entropy nor
    clock. It returns what [validateMasterPassword] answers, false when
    that throws; on true the session is authenticated and holds the
    password, on false the session is as it was. *)
Theorem login_spec (password_ : jsstring) (s : Session) (w : World) :
  exists b s',
    login password_ s w = (Ok b, s', w)
    /\ (b = true <-> fst (validateMasterPassword password_ w) = Ok true)
    /\ (b = true ->
        s' = mkSession true (isInitialized s) (isLoading s) (Some password_))
    /\ (b = false -> s' = s).
Proof.
  rewrite login_run.
  destruct (fst (validateMasterPassword password_ w)) as [[|]|e];
    eexists _, _; (split; [reflexivity|]); repeat split; congruence.
Qed.

(** X20: a session holds the master password exactly when it is
    authenticated: this is so at the start and is kept by the mount
    effect, [login], [logout] and [setup]; and after [logout] the password
    is gone. *)
Theorem session_consistent (password_ : jsstring) (s : Session) (w : World)
    (hasWindow : bool) :
  consistent initial
  /\ (consistent s ->
      consistent (checkInitialization hasWindow s w)
      /\ consistent (snd (fst (login password_ s w)))
      /\ consistent (snd (fst (setup password_ s w))))
  /\ consistent (logout s)
  /\ masterPassword (logout s) = None.
Proof.
  unfold consistent. split; [|split; [|split]].
  - cbn. split; [discriminate | intros [? [=]]].
  - intros Hs. split; [exact Hs|]. split.
    + rewrite login_run.
      destruct (fst (validateMasterPassword password_ w)) as [[|]|e]; cbn;
        try exact Hs. split; eauto.
    + unfold setup. rewrite initializeApp_run. cbn. split; eauto.
  - cbn. split; [discriminate | intros [? [=]]].
  - reflexivity.
Qed.

(** X21: after [setup] with a password the session is authenticated with
    it and the vault is initialized, whatever state there was; and after a
    [logout], [login] with the same password succeeds and gives the same
    session back. *)
Theorem setup_logout_login (password_ : jsstring) (s : Session) (w : World) :
  aead_correct ->
  exists s1 w1,
    setup password_ s w = (Ok tt, s1, w1)
    /\ s1 = mkSession true true (isLoading s) (Some password_)
    /\ isAppInitialized true w1 = true
    /\ login password_ (logout s1) w1 = (Ok true, s1, w1).
Proof.
  intros Haead. pose proof (validate_after_initialize password_ w Haead) as Hv.
  unfold setup. rewrite initializeApp_run in *. cbn [snd] in Hv.
  eexists _, _. split; [reflexivity|]. split; [reflexivity|]. split.
  - unfold isAppInitialized. cbn [negb localStorage].
    apply bool_decide_eq_true, lookup_insert_eq.
  - rewrite login_run, Hv. reflexivity.
Qed.

End SessionMore.

Section LoginScreenMore.
Context `{WebPlatform}.
Import AuthContext.

(** X22: the setup form initializes the vault only with a password of at
    least 8 characters that was typed twice. Otherwise it writes nothing,
    leaves the session alone and shows the reason; when it does set up, the
    session is authenticated with that password and no error is shown. *)
Theorem handleSetup_spec (f : LoginScreen.Form) (s : Session) (w : World) :
  ((length (LoginScreen.password f) < 8)%nat ->
   LoginScreen.handleSetup f s w
   = (LoginScreen.with_error f LoginScreen.PASSWORD_TOO_SHORT (LoginScreen.isLoading f), s, w))
  /\ ((8 <= length (LoginScreen.password f))%nat ->
      LoginScreen.password f <> LoginScreen.confirmPassword f ->
      LoginScreen.handleSetup f s w
      = (LoginScreen.with_error f LoginScreen.MISMATCH (LoginScreen.isLoading f), s, w))
  /\ ((8 <= length (LoginScreen.password f))%nat ->
      LoginScreen.password f = LoginScreen.confirmPassword f ->
      exists w',
        LoginScreen.handleSetup f s w
        = (LoginScreen.with_error f "" false,
           mkSession true true (isLoading s) (Some (LoginScreen.password f)), w')
        /\ isAppInitialized true w' = true).
Proof.
  unfold LoginScreen.handleSetup. split; [|split].
  - intros Hlen. now destruct (Nat.ltb_spec (length (LoginScreen.password f)) 8); [|lia].
  - intros Hlen Hne. destruct (Nat.ltb_spec (length (LoginScreen.password f)) 8); [lia|].
    now rewrite bool_decide_eq_false_2.
  - intros Hlen Heq. destruct (Nat.ltb_spec (length (LoginScreen.password f)) 8); [lia|].
    rewrite bool_decide_eq_true_2 by assumption. cbn [negb].
    unfold setup. rewrite initializeApp_run. eexists. split; [reflexivity|].
    unfold isAppInitialized. cbn [negb localStorage].
    apply bool_decide_eq_true, lookup_insert_eq.
Qed.

(** X23: the login form changes neither storage, entropy nor clock. When
    the password validates the session is authenticated with it and no
    error is shown; when it does not, the session is as it was and the
    wrong-password message is shown. The message for a failed login is
    never shown, and the form is never left loading. *)
Theorem handleLogin_spec (f : LoginScreen.Form) (s : Session) (w : World) :
  exists f' s',
    LoginScreen.handleLogin f s w = (f', s', w)
    /\ LoginScreen.isLoading f' = false
    /\ LoginScreen.error f' <> LoginScreen.LOGIN_FAILED
    /\ (fst (validateMasterPassword (LoginScreen.password f) w) = Ok true ->
        LoginScreen.error f' = ""
        /\ s' = mkSession true (isInitialized s) (isLoading s)
                          (Some (LoginScreen.password f)))
    /\ (fst (validateMasterPassword (LoginScreen.password f) w) <> Ok true ->
        LoginScreen.error f' = LoginScreen.WRONG_PASSWORD /\ s' = s).
Proof.
  unfold LoginScreen.handleLogin. rewrite login_run.
  destruct (fst (validateMasterPassword (LoginScreen.password f) w)) as [[|]|e];
    eexists _, _; (split; [reflexivity|]); cbn;
    repeat split; try discriminate; try congruence; intros; congruence.
Qed.

End LoginScreenMore.

Section ListFilterMore.
Context `{WebPlatform}.



End ListFilterMore.

(** * The further properties on the executable platform *)

Lemma vault_locked :
  fst (@getPasswords Sim.platform (js "wrong") Sim.vault) = Err (Error DECRYPT_FAILED).
Proof. vm_compute. reflexivity. Qed.

Lemma vault_ids_unique : NoDup (map entry_id [Sim.mail; Sim.bank]).
Proof. apply (bool_decide_unpack _). vm_compute. exact I. Qed.


Lemma mutations_need_a_readable_vault_witness :
  fst (@getPasswords Sim.platform (js "wrong") Sim.vault) = Err (Error DECRYPT_FAILED)
  /\ @addPassword Sim.platform SimMore.note (js "wrong") Sim.vault
     = (Err (Error DECRYPT_FAILED), Sim.vault)
  /\ @deletePassword Sim.platform (js "id-1") (js "wrong") Sim.vault
     = (Err (Error DECRYPT_FAILED), Sim.vault).
Proof.
  split; [apply vault_locked|].
  destruct (@mutations_need_a_readable_vault Sim.platform (js "wrong") Sim.vault
              (Error DECRYPT_FAILED) SimMore.note (js "id-1")
              (mkEntryUpdates None None None None None None) vault_locked)
    as (Ha & _ & Hd).
  split; assumption.
Defined.

Lemma mutations_write_data_only_witness :
  let w' := snd (@deletePassword Sim.platform (js "id-1") Sim.master Sim.vault) in
  (w' = snd (@addPassword Sim.platform SimMore.note Sim.master Sim.vault)
   \/ w' = snd (@updatePassword Sim.platform (js "id-1")
                  (mkEntryUpdates None None None None None None) Sim.master Sim.vault)
   \/ w' = snd (@deletePassword Sim.platform (js "id-1") Sim.master Sim.vault))
  /\ localStorage w' !! PASSWORD_VERIFIER = localStorage Sim.vault !! PASSWORD_VERIFIER
  /\ localStorage w' !! IS_INITIALIZED = localStorage Sim.vault !! IS_INITIALIZED.
Proof.
  cbv zeta. split; [right; right; reflexivity|].
  destruct (@mutations_write_data_only Sim.platform Sim.master Sim.vault SimMore.note
              (js "id-1") (mkEntryUpdates None None None None None None)
              (snd (@deletePassword Sim.platform (js "id-1") Sim.master Sim.vault))
              (or_intror (or_intror eq_refl))) as (Hframe & _ & _).
  split; apply Hframe; discriminate.
Defined.



Lemma updatePassword_keeps_ids_witness :
  @aead_correct Sim.platform /\ @json_correct Sim.platform
  /\ fst (@getPasswords Sim.platform Sim.master Sim.vault) = Ok [Sim.mail; Sim.bank]
  /\ exists l',
       fst (@getPasswords Sim.platform Sim.master
              (snd (@updatePassword Sim.platform (js "id-2")
                      (mkEntryUpdates None (Some (js "carol")) None None None None)
                      Sim.master Sim.vault))) = Ok l'
       /\ map entry_id l' = [js "id-1"; js "id-2"].
Proof.
  split; [apply SimFacts.aead|]. split; [apply SimFacts.json|].
  split; [apply vault_read|].
  destruct (@updatePassword_keeps_ids Sim.platform (js "id-2")
              (mkEntryUpdates None (Some (js "carol")) None None None None)
              Sim.master Sim.vault [Sim.mail; Sim.bank]
              SimFacts.aead SimFacts.json vault_read) as (l' & Hread & Hids & _).
  exists l'. split; [exact Hread | exact Hids].
Defined.

Lemma deletePassword_twice_witness :
  @aead_correct Sim.platform /\ @json_correct Sim.platform
  /\ fst (@getPasswords Sim.platform Sim.master Sim.vault) = Ok [Sim.mail; Sim.bank]
  /\ NoDup (map entry_id [Sim.mail; Sim.bank])
  /\ @deletePassword Sim.platform (js "id-1") Sim.master
       (snd (@deletePassword Sim.platform (js "id-1") Sim.master Sim.vault))
     = (Ok false, snd (@deletePassword Sim.platform (js "id-1") Sim.master Sim.vault)).
Proof.
  split; [apply SimFacts.aead|]. split; [apply SimFacts.json|].
  split; [apply vault_read|]. split; [apply vault_ids_unique|].
  destruct (@deletePassword_twice Sim.platform (js "id-1") Sim.master Sim.vault
              [Sim.mail; Sim.bank] SimFacts.aead SimFacts.json vault_read vault_ids_unique)
    as (l' & _ & _ & _ & Hagain).
  exact Hagain.
Defined.

Lemma searchPasswords_empty_query_witness :
  @toLowerCase Sim.platform [] = []
  /\ fst (@getPasswords Sim.platform Sim.master Sim.vault) = Ok [Sim.mail; Sim.bank]
  /\ @searchPasswords Sim.platform [] Sim.master Sim.vault
     = (Ok [Sim.mail; Sim.bank], Sim.vault).
Proof.
  split; [reflexivity|]. split; [apply vault_read|].
  apply (@searchPasswords_empty_query Sim.platform Sim.master Sim.vault
           [Sim.mail; Sim.bank] eq_refl vault_read).
Defined.


Lemma decrypt_illegal_character_witness :
  In 33 (js "QUJD!A==")
  /\ Base64.is_ascii_whitespace 33 = false
  /\ Base64.value_of 33 = None
  /\ 33 <> Base64.PAD
  /\ @decrypt Sim.platform (js "QUJD!A==") Sim.master Sim.world
     = (Err InvalidCharacterError, Sim.world).
Proof.
  assert (Hin : In 33 (js "QUJD!A==")) by (simpl; tauto).
  split; [exact Hin|]. split; [reflexivity|]. split; [reflexivity|].
  split; [discriminate|].
  apply (@decrypt_illegal_character Sim.platform (js "QUJD!A==") Sim.master 33 Sim.world
           Hin eq_refl eq_refl). discriminate.
Defined.

Lemma shuffle_Permutation_witness :
  (2 < length (js "a1B"))%nat
  /\ shuffle [7; 4; 9] 2 (js "a1B") ≡ₚ js "a1B"
  /\ shuffle [7; 4; 9] 2 (js "a1B") = js "1Ba".
Proof.
  assert (Hlen : (2 < length (js "a1B"))%nat) by (simpl; lia).
  split; [exact Hlen|]. split; [|reflexivity].
  apply (shuffle_Permutation [7; 4; 9] 2 (js "a1B") Hlen).
Defined.

Lemma four_classes_sixteen_witness :
  (forall cls, has_class cls (js "Abcdefgh1234!xyz") = true)
  /\ (16 <= length (js "Abcdefgh1234!xyz"))%nat
  /\ (60 <= score (@evaluatePasswordStrength Sim.platform (js "Abcdefgh1234!xyz")))%Z.
Proof.
  assert (Hall : forall cls, has_class cls (js "Abcdefgh1234!xyz") = true)
    by (intros []; reflexivity).
  assert (Hlen : (16 <= length (js "Abcdefgh1234!xyz"))%nat) by (simpl; lia).
  split; [exact Hall|]. split; [exact Hlen|].
  apply (@four_classes_sixteen Sim.platform (js "Abcdefgh1234!xyz") Hall Hlen).
Defined.

Lemma generated_password_is_good_witness :
  (16 <= 16 <= 16384)%Z
  /\ exists pw,
       fst (generatePassword defaultPasswordOptions Sim.world) = Ok pw
       /\ (60 <= score (@evaluatePasswordStrength Sim.platform pw))%Z.
Proof.
  assert (HL : (16 <= 16 <= 16384)%Z) by lia.
  split; [exact HL|].
  destruct (@generated_password_is_good Sim.platform 16 Sim.world HL)
    as (pw & Hrun & Hscore & _).
  exists pw. split; [exact Hrun | exact Hscore].
Defined.

Lemma setup_logout_login_witness :
  @aead_correct Sim.platform
  /\ exists s1 w1,
       @AuthContext.setup Sim.platform Sim.master AuthContext.initial Sim.world
       = (Ok tt, s1, w1)
       /\ AuthContext.isAuthenticated s1 = true
       /\ @AuthContext.login Sim.platform Sim.master (AuthContext.logout s1) w1
          = (Ok true, s1, w1).
Proof.
  split; [apply SimFacts.aead|].
  destruct (@setup_logout_login Sim.platform Sim.master AuthContext.initial Sim.world
              SimFacts.aead) as (s1 & w1 & Hrun & -> & _ & Hlogin).
  eexists _, w1. split; [exact Hrun|]. split; [reflexivity | exact Hlogin].
Defined.

